(** * Kuzco: copy-on-write state trees over reference-counted blocks

    A shallow embedding of [code/kuzco/Kuzco.hpp].  The header defines the
    class templates [NewObject<T>], [Member<T>] and [RootObject<T>] inline;
    the out-of-line members of the [impl] base classes (declared in the
    header, defined in a translation unit that is not part of the sources)
    are modelled from the specification and marked as such.

    Blocks created by [std::make_shared] live in a heap indexed by block
    address.  Every operation is a computation in a state-and-failure
    monad over the [World]; failure stands for undefined behaviour (a null
    or dangling dereference) or for a call that never returns. *)

From stdpp Require Import gmap list.
From Stdlib Require Import ZArith Lia.

Set Warnings "-register-all".

Local Open Scope Z_scope.
Local Open Scope nat_scope.

(** ** Data model *)

(** Block addresses.  [None] in a pointer field is [nullptr]. *)
Abbreviation addr := positive (only parsing).

(** [impl::Data]: the quick-access pointer and the owning shared pointer. *)
Record Data := mkData {
  qdata : option addr;
  payload : option addr
}.

(** A value of a tree type [T]: its plain fields and, in declaration
    order, its [Member<...>] fields. *)
Record Obj := mkObj {
  plain : Z;
  members : list Data
}.

(** [impl::RootObject]. *)
Record RootObject := mkRootObject {
  m_root : Data;
  m_transactionMutex : bool;
  m_openEdits : list Data;
  m_detachedRoot : option addr
}.

(** The state one thread works on: the blocks with their use counts, the
    allocator, the thread's transaction depth and the root object. *)
Record World := mkWorld {
  heap : gmap positive Obj;
  refs : gmap positive nat;
  next : positive;
  depth : nat;
  root : RootObject
}.

#[global] Instance Data_eq_dec : EqDecision Data.
Proof. solve_decision. Defined.

#[global] Instance Obj_eq_dec : EqDecision Obj.
Proof. solve_decision. Defined.

Definition null_data : Data := mkData None None.

Definition set_heap (f : gmap positive Obj → gmap positive Obj) (w : World) : World :=
  mkWorld (f (heap w)) (refs w) (next w) (depth w) (root w).

Definition set_refs (f : gmap positive nat → gmap positive nat) (w : World) : World :=
  mkWorld (heap w) (f (refs w)) (next w) (depth w) (root w).

Definition set_next (f : positive → positive) (w : World) : World :=
  mkWorld (heap w) (refs w) (f (next w)) (depth w) (root w).

Definition set_depth (f : nat → nat) (w : World) : World :=
  mkWorld (heap w) (refs w) (next w) (f (depth w)) (root w).

Definition set_root (f : RootObject → RootObject) (w : World) : World :=
  mkWorld (heap w) (refs w) (next w) (depth w) (f (root w)).

Definition with_m_root (d : Data) (r : RootObject) : RootObject :=
  mkRootObject d (m_transactionMutex r) (m_openEdits r) (m_detachedRoot r).

Definition with_mutex (b : bool) (r : RootObject) : RootObject :=
  mkRootObject (m_root r) b (m_openEdits r) (m_detachedRoot r).

Definition with_openEdits (l : list Data) (r : RootObject) : RootObject :=
  mkRootObject (m_root r) (m_transactionMutex r) l (m_detachedRoot r).

Definition with_detachedRoot (p : option addr) (r : RootObject) : RootObject :=
  mkRootObject (m_root r) (m_transactionMutex r) (m_openEdits r) p.

(** ** The monad *)

Definition kz (A : Type) : Type := World → option (A * World).

Definition ret {A} (x : A) : kz A := λ w, Some (x, w).

Definition bind {A B} (m : kz A) (k : A → kz B) : kz B :=
  λ w, match m w with
       | Some (x, w') => k x w'
       | None => None
       end.

Definition fail {A} : kz A := λ _, None.

Definition gets {A} (f : World → A) : kz A := λ w, Some (f w, w).

Definition modify (f : World → World) : kz unit := λ w, Some (tt, f w).

Definition lift_opt {A} (o : option A) : kz A :=
  match o with
  | Some x => ret x
  | None => fail
  end.

Declare Scope kz_scope.
Delimit Scope kz_scope with kz.
Notation "x <- m ;; k" := (bind m (λ x, k))
  (at level 100, m at level 99, k at level 200, right associativity) : kz_scope.
Notation "m ;;; k" := (bind m (λ _, k))
  (at level 100, k at level 200, right associativity) : kz_scope.
Local Open Scope kz_scope.

Fixpoint mapM_kz {A B} (f : A → kz B) (l : list A) : kz (list B) :=
  match l with
  | [] => ret []
  | x :: l' => y <- f x ;; ys <- mapM_kz f l' ;; ret (y :: ys)
  end.

Fixpoint forM_kz {A} (f : A → kz unit) (l : list A) : kz unit :=
  match l with
  | [] => ret tt
  | x :: l' => f x ;;; forM_kz f l'
  end.

(** ** Shared pointers and blocks *)

(** [std::make_shared<T>]: a new block with use count one.  Addresses are
    handed out in increasing order and never reused; [next] is therefore
    also the number of allocations made so far. *)
Definition make_shared (o : Obj) : kz addr :=
  a <- gets next ;;
  modify (λ w, set_next Pos.succ (set_refs (insert a 1) (set_heap (insert a o) w))) ;;;
  ret a.

(** Copying a [std::shared_ptr]: one more owner of the block. *)
Definition acquire (p : option addr) : kz unit :=
  match p with
  | None => ret tt
  | Some a =>
      n <- (w <- gets refs ;; lift_opt (w !! a)) ;;
      modify (set_refs (insert a (S n)))
  end.

(** Destroying or overwriting a [std::shared_ptr]: one owner fewer.  The
    model keeps the block in the heap also when the count reaches zero:
    no handle refers to it any more, so nothing can observe it. *)
Definition release (p : option addr) : kz unit :=
  match p with
  | None => ret tt
  | Some a =>
      n <- (w <- gets refs ;; lift_opt (w !! a)) ;;
      modify (set_refs (insert a (n - 1)))
  end.

Definition load (a : addr) : kz Obj :=
  h <- gets heap ;; lift_opt (h !! a).

Definition store (a : addr) (o : Obj) : kz unit :=
  load a ;;; modify (set_heap (insert a o)).

(** [Data::construct<T>(args...)]: the constructor of [T] is run by
    [make_shared]; it is passed as the computation [ctor]. *)
Definition Data_construct (ctor : kz Obj) : kz Data :=
  o <- ctor ;;
  a <- make_shared o ;;
  ret (mkData (Some a) (Some a)).

(** ** Members of [impl::Member] and [impl::RootObject] defined out of line *)

(** Modelled from the spec: [impl::Member::deep] is declared in the header
    and defined elsewhere.  The copy rule is governed by the calling
    thread's transaction-depth counter: deep while it is zero, shallow
    while it is nonzero. *)
Definition deep : kz bool := gets (λ w, Nat.eqb (depth w) 0).

(** Modelled from the spec: [impl::RootObject::isOpenEdit] is declared in
    the header and defined elsewhere.  The registry is searched linearly
    for an entry with the identity (block address) of [d]. *)
Definition isOpenEdit (d : Data) : kz bool :=
  gets (λ w, existsb (λ e, bool_decide (payload e = payload d))
                     (m_openEdits (root w))).

(** Modelled from the spec: [impl::RootObject::openEdit] is declared in
    the header and defined elsewhere.  The registry is an ordered
    collection; the handle is copied to its end. *)
Definition openEdit (d : Data) : kz unit :=
  acquire (payload d) ;;;
  modify (set_root (λ r, with_openEdits (m_openEdits r ++ [d]) r)).

(** Modelled from the spec: [impl::Member::detached] is declared in the
    header and defined elsewhere.  Its comment in the header reads: if we
    are working on new objects we are detached, inside a transaction a
    search is performed. *)
Definition detached (m : Data) : kz bool :=
  d <- deep ;;
  if d then ret true else isOpenEdit m.

(** Modelled from the spec: [impl::Member::detachWith] is declared in the
    header and defined elsewhere.  The member drops its handle, holds
    [data] instead and registers it as an open edit.  The result is the
    member's new [m_data]. *)
Definition detachWith (m : Data) (data : Data) : kz Data :=
  release (payload m) ;;;
  openEdit data ;;;
  ret data.

(** Modelled from the spec: [impl::Member::takeData] is declared in the
    header and defined elsewhere.  The handle of the source moves to the
    member without a change of its use count; the source is not used
    afterwards. *)
Definition takeData (m : Data) (other : Data) : kz Data :=
  release (payload m) ;;;
  ret other.

(** Modelled from the spec: the constructor of [impl::RootObject] is
    declared in the header and defined elsewhere.  The new object becomes
    the root member and the first committed snapshot, both on one block;
    the mutex is free and the registry empty. *)
Definition impl_RootObject_ctor (obj : Data) : kz unit :=
  r <- takeData null_data obj ;;
  acquire (payload r) ;;;
  modify (set_root (λ _, mkRootObject r false [] (payload r))).

(** Modelled from the spec: [impl::RootObject::beginTransaction] is
    declared in the header and defined elsewhere.  It takes the mutex and
    increments the thread's transaction depth.  With the mutex already
    held the call never returns. *)
Definition impl_beginTransaction : kz unit :=
  locked <- gets (λ w, m_transactionMutex (root w)) ;;
  if locked then fail
  else modify (λ w, set_depth S (set_root (with_mutex true) w)).

(** Modelled from the spec: [impl::RootObject::endTransaction] is declared
    in the header and defined elsewhere.  It publishes the handle of the
    root member as the committed snapshot, clears the registry, decrements
    the transaction depth and frees the mutex.  Unlocking a mutex that is
    not held is undefined. *)
Definition impl_endTransaction : kz unit :=
  locked <- gets (λ w, m_transactionMutex (root w)) ;;
  if negb locked then fail
  else
    r <- gets root ;;
    acquire (payload (m_root r)) ;;;
    release (m_detachedRoot r) ;;;
    modify (set_root (with_detachedRoot (payload (m_root r)))) ;;;
    forM_kz (λ e, release (payload e)) (m_openEdits r) ;;;
    modify (set_root (with_openEdits [])) ;;;
    modify (λ w, set_depth Nat.pred (set_root (with_mutex false) w)).

(** Modelled from the spec: [impl::RootObject::detachedRoot] is declared
    in the header and defined elsewhere.  It returns a copy of the
    committed handle and takes no lock. *)
Definition detachedRoot : kz (option addr) :=
  p <- gets (λ w, m_detachedRoot (root w)) ;;
  acquire p ;;;
  ret p.

(** ** [NewObject<T>] *)

(** Modelled from the spec: [impl::NewObject::setData] is declared in the
    header and defined elsewhere.  It stores the handle in [m_data]; the
    result is the object's [m_data]. *)
Definition setData (d : Data) : kz Data := ret d.

(** [NewObject(Args&&...)]. *)
Definition NewObject_ctor (ctor : kz Obj) : kz Data :=
  d <- Data_construct ctor ;;
  setData d.

(** ** [Member<T>] *)

(** [Member(Args&&...)]. *)
Definition Member_ctor (ctor : kz Obj) : kz Data :=
  Data_construct ctor.

(** [const T* get() const]. *)
Definition Member_get_const (m : Data) : kz addr := lift_opt (qdata m).

(** [T* qget()]. *)
Definition qget (m : Data) : kz addr := lift_opt (qdata m).

(** [Member(const Member& other)], for a [T] whose copy constructor is
    [Tcopy]. *)
Definition Member_copy_ctor_with (Tcopy : Obj → kz Obj) (other : Data) : kz Data :=
  d <- deep ;;
  if d then
    q <- Member_get_const other ;;
    o <- load q ;;
    Data_construct (Tcopy o)
  else
    acquire (payload other) ;;;
    ret other.

(** The implicit copy constructor of a tree type: plain fields are
    copied, each member is copy-constructed.  [fuel] bounds the depth of
    the tree that is copied. *)
Fixpoint T_copy (fuel : nat) (o : Obj) : kz Obj :=
  match fuel with
  | O => fail
  | S f =>
      ms <- mapM_kz (Member_copy_ctor_with (T_copy f)) (members o) ;;
      ret (mkObj (plain o) ms)
  end.

Definition Member_copy_ctor (fuel : nat) (other : Data) : kz Data :=
  Member_copy_ctor_with (T_copy fuel) other.

(** The right-hand side of an assignment: a [T] that lives in a block, or
    an object outside the heap. *)
Inductive Src :=
  | InBlock (a : addr)
  | Local (o : Obj).

Definition read_src (s : Src) : kz Obj :=
  match s with
  | InBlock a => load a
  | Local o => ret o
  end.

(** The two assignment operators of [Member<T>] share one body: in place
    through [qget] when detached, [detachWith] a newly constructed block
    otherwise.  [Tassign] is the assignment operator of [T], [Tctor] its
    constructor from the right-hand side. *)
Definition Member_assign_with (Tassign : addr → Src → kz unit)
    (Tctor : Src → kz Obj) (m : Data) (s : Src) : kz Data :=
  d <- detached m ;;
  if d then
    q <- qget m ;;
    Tassign q s ;;;
    ret m
  else
    new <- Data_construct (Tctor s) ;;
    detachWith m new.

Definition T_ctor (fuel : nat) (s : Src) : kz Obj :=
  o <- read_src s ;; T_copy fuel o.

Definition set_member (p : addr) (i : nat) (m : Data) : kz unit :=
  o <- load p ;;
  store p (mkObj (plain o) (<[i := m]> (members o))).

(** The implicit copy assignment of a tree type, on the object in block
    [tgt]: plain fields are assigned, then each member is assigned from
    the member at the same position by [Member::operator=(const
    Member&)].  The right-hand side is a reference and is read when each
    field is assigned. *)
Fixpoint T_assign (fuel : nat) (tgt : addr) (s : Src) : kz unit :=
  match fuel with
  | O => fail
  | S f =>
      so <- read_src s ;;
      to <- load tgt ;;
      store tgt (mkObj (plain so) (members to)) ;;;
      forM_kz (λ i,
          so' <- read_src s ;;
          sm <- lift_opt (members so' !! i) ;;
          to' <- load tgt ;;
          tm <- lift_opt (members to' !! i) ;;
          sq <- Member_get_const sm ;;
          tm' <- Member_assign_with (T_assign f) (T_ctor (S f)) tm (InBlock sq) ;;
          set_member tgt i tm')
        (seq 0 (length (members to)))
  end.

(** [Member& operator=(const Member& other)]. *)
Definition Member_copy_assign (fuel : nat) (m other : Data) : kz Data :=
  d <- detached m ;;
  if d then
    q <- qget m ;;
    sq <- Member_get_const other ;;
    T_assign fuel q (InBlock sq) ;;;
    ret m
  else
    sq <- Member_get_const other ;;
    o <- load sq ;;
    new <- Data_construct (T_copy fuel o) ;;
    detachWith m new.

(** [Member& operator=(U&& u)], for a right-hand side [u] outside the
    heap. *)
Definition Member_value_assign (fuel : nat) (m : Data) (u : Obj) : kz Data :=
  d <- detached m ;;
  if d then
    q <- qget m ;;
    T_assign fuel q (Local u) ;;;
    ret m
  else
    new <- Data_construct (T_copy fuel u) ;;
    detachWith m new.

(** [T* get()]: the result is the member's [m_data] after the call and
    the pointer returned. *)
Definition Member_get (fuel : nat) (m : Data) : kz (Data * addr) :=
  d <- detached m ;;
  m' <- (if negb d then
           q <- Member_get_const m ;;
           o <- load q ;;
           new <- Data_construct (T_copy fuel o) ;;
           detachWith m new
         else ret m) ;;
  p <- qget m' ;;
  ret (m', p).

(** [std::shared_ptr<const T> payload() const]. *)
Definition Member_payload (m : Data) : kz (option addr) :=
  acquire (payload m) ;;;
  ret (payload m).

(** A member function of the [i]-th member of the object in block [p],
    with the member's [m_data] written back. *)
Definition in_member {A} (p : addr) (i : nat) (op : Data → kz (Data * A)) : kz A :=
  o <- load p ;;
  m <- lift_opt (members o !! i) ;;
  r <- op m ;;
  set_member p i (fst r) ;;;
  ret (snd r).

(** Writing the plain fields through a [T*]. *)
Definition write_plain (p : addr) (v : Z) : kz unit :=
  o <- load p ;;
  store p (mkObj v (members o)).

(** ** [RootObject<T>] *)

(** [RootObject(NewObject<T>&& obj)]. *)
Definition RootObject_ctor (obj : Data) : kz unit :=
  impl_RootObject_ctor obj.

(** [T* beginTransaction()]. *)
Definition beginTransaction (fuel : nat) : kz addr :=
  impl_beginTransaction ;;;
  r <- gets (λ w, m_root (root w)) ;;
  q <- lift_opt (qdata r) ;;
  o <- load q ;;
  new <- Data_construct (T_copy fuel o) ;;
  r' <- detachWith r new ;;
  modify (set_root (with_m_root r')) ;;;
  lift_opt (qdata r').

(** [void endTransaction()]. *)
Definition endTransaction : kz unit := impl_endTransaction.

(** [std::shared_ptr<const T> detachedPayload() const]. *)
Definition detachedPayload : kz (option addr) := detachedRoot.

(** ** Predicates on worlds *)

Definition with_refs (r : gmap positive nat) (w : World) : World :=
  mkWorld (heap w) r (next w) (depth w) (root w).

(** The handle [d] is an entry of the open-edits registry. *)
Definition registered (d : Data) (w : World) : bool :=
  existsb (λ e, bool_decide (payload e = payload d)) (m_openEdits (root w)).

(** The block a handle owns has a use count. *)
Definition live (r : gmap positive nat) (d : Data) : Prop :=
  ∀ a, payload d = Some a → is_Some (r !! a).

#[global] Instance live_dec r d : Decision (live r d).
Proof.
  unfold live. destruct (payload d) as [a|].
  - destruct (r !! a) as [n|] eqn:E.
    + left. intros b [= <-]. eauto.
    + right. intros H. destruct (H a eq_refl) as [n Hn]. congruence.
  - left. intros b Hb. discriminate.
Defined.

(** The allocator has not handed out the addresses from [next] on. *)
Definition alloc_ok (w : World) : Prop :=
  map_Forall (λ a _, (a < next w)%positive) (heap w)
  ∧ map_Forall (λ a _, (a < next w)%positive) (refs w).

(** The value of a tree type as a tree of plain values, without the
    blocks that hold it. *)
Inductive Tree := TNode (v : Z) (kids : list Tree).

Definition denote_member (den : addr → option Tree) (m : Data) : option Tree :=
  q ← qdata m; den q.

Definition denote_obj (den : addr → option Tree) (o : Obj) : option Tree :=
  kids ← mapM (denote_member den) (members o); Some (TNode (plain o) kids).

(** The tree held by block [a], read to depth [n], provided that all its
    blocks are at addresses from [lo] on. *)
Fixpoint denote_from (lo : positive) (n : nat) (h : gmap positive Obj) (a : addr)
    : option Tree :=
  match n with
  | O => None
  | S k =>
      if (lo <=? a)%positive
      then o ← h !! a; denote_obj (denote_from lo k h) o
      else None
  end.

(** The tree held by block [a], wherever its blocks are. *)
Definition denote : nat → gmap positive Obj → addr → option Tree :=
  denote_from 1%positive.

(** What an operation that only allocates leaves as it was. *)
Definition frame (w w' : World) : Prop :=
  depth w' = depth w ∧ root w' = root w
  ∧ heap w ⊆ heap w' ∧ refs w ⊆ refs w'
  ∧ (next w ≤ next w')%positive.

(** ** Client programs *)

(** The calls a client makes on one thread: transactions, snapshots, and
    member functions of the [i]-th member of the object a pointer [p]
    refers to. *)
Inductive Op :=
  | OBegin
  | OEnd
  | OSnapshot
  | OGet (p : addr) (i : nat)
  | OWrite (p : addr) (v : Z)
  | OCopyAssign (p : addr) (i : nat) (p' : addr) (i' : nat)
  | OValueAssign (p : addr) (i : nat) (u : Obj).

Definition exec (fuel : nat) (op : Op) : kz unit :=
  match op with
  | OBegin => beginTransaction fuel ;;; ret tt
  | OEnd => endTransaction
  | OSnapshot => detachedPayload ;;; ret tt
  | OGet p i => in_member p i (Member_get fuel) ;;; ret tt
  | OWrite p v => write_plain p v
  | OCopyAssign p i p' i' =>
      o' <- load p' ;;
      other <- lift_opt (members o' !! i') ;;
      in_member p i (λ m, m' <- Member_copy_assign fuel m other ;; ret (m', tt))
  | OValueAssign p i u =>
      in_member p i (λ m, m' <- Member_value_assign fuel m u ;; ret (m', tt))
  end.

Definition run (fuel : nat) (ops : list Op) : kz unit := forM_kz (exec fuel) ops.


(** ** Invariants of client programs *)

(** The root is idle with nothing registered, or in its one transaction. *)
Definition idle_inv (w : World) : Prop :=
  if m_transactionMutex (root w)
  then depth w = 1
  else depth w = 0 ∧ m_openEdits (root w) = [].

(** The calls on a member or through a pointer, as opposed to the calls
    on the root object. *)
Definition is_member_op (op : Op) : bool :=
  match op with
  | OBegin | OEnd | OSnapshot => false
  | _ => true
  end.

(** A computation whose every run is related by [R]. *)
Definition respects (R : relation World) {A} (m : kz A) : Prop :=
  ∀ w r w', m w = Some (r, w') → R w w'.

(** Mutex and transaction depth stay, the registry is only appended to. *)
Definition stepR : relation World := λ w w',
  m_transactionMutex (root w') = m_transactionMutex (root w)
  ∧ depth w' = depth w
  ∧ m_openEdits (root w) `prefix_of` m_openEdits (root w').

(** Mutex and transaction depth stay, and outside transactions so does
    the registry. *)
Definition keepsR : relation World := λ w w',
  m_transactionMutex (root w') = m_transactionMutex (root w)
  ∧ depth w' = depth w
  ∧ (depth w = 0 → m_openEdits (root w') = m_openEdits (root w)).

(** Outside transactions nothing is allocated, and use counts and root
    object stay; blocks are written but none appears. *)
Definition inplaceR : relation World := λ w w',
  depth w = 0 →
  next w' = next w ∧ refs w' = refs w ∧ root w' = root w
  ∧ depth w' = 0 ∧ dom (heap w') = dom (heap w).

(** The transaction stays open and the registry is only appended to. *)
Definition growR : relation World := λ w w',
  (depth w ≠ 0 → depth w' ≠ 0)
  ∧ m_openEdits (root w) `prefix_of` m_openEdits (root w').

(** ** Effects on use counts and worlds *)

(** The effect of copying and of dropping a shared pointer on the use
    counts. *)
Definition add_ref (p : option addr) (r : gmap positive nat) : gmap positive nat :=
  match p with
  | Some a => match r !! a with Some n => <[a := S n]> r | None => r end
  | None => r
  end.

Definition drop_ref (p : option addr) (r : gmap positive nat) : gmap positive nat :=
  match p with
  | Some a => match r !! a with Some n => <[a := n - 1]> r | None => r end
  | None => r
  end.

Definition share_all (ms : list Data) (r : gmap positive nat) : gmap positive nat :=
  foldl (λ r' m, add_ref (payload m) r') r ms.


(** The world after a value [o] was copied into a new block in a shallow
    context. *)
Definition copy_world (o : Obj) (w : World) : World :=
  set_next Pos.succ
    (set_refs (insert (next w) 1)
       (set_heap (insert (next w) o)
          (with_refs (share_all (members o) (refs w)) w))).

(** The world after a shared member [m] with value [o] was detached in a
    shallow context: one new block at [next w] holding the copy, the old
    handle dropped, the new one held by the member and by the registry. *)
Definition detach_world (o : Obj) (m : Data) (w : World) : World :=
  let a := next w in
  mkWorld (<[a := o]> (heap w))
          (add_ref (Some a)
             (drop_ref (payload m) (<[a := 1]> (share_all (members o) (refs w)))))
          (Pos.succ a)
          (depth w)
          (with_openEdits (m_openEdits (root w) ++ [mkData (Some a) (Some a)]) (root w)).

(** The world after [beginTransaction] on a root whose value is [o]. *)
Definition begin_world (o : Obj) (w : World) : World :=
  set_root (with_m_root (mkData (Some (next w)) (Some (next w))))
    (detach_world o (m_root (root w))
       (set_depth S (set_root (with_mutex true) w))).


(** ** Example worlds *)

Definition empty_world : World :=
  mkWorld ∅ ∅ 1%positive 0 (mkRootObject null_data false [] None).

Definition run_from {A} (m : kz A) (w : World) : World :=
  match m w with
  | Some (_, w') => w'
  | None => w
  end.

(** A value without members, and the default constructor of
    [struct { Member<int> a; Member<int> b; }] with initial values. *)
Definition leaf (v : Z) : kz Obj := ret (mkObj v []).

Definition pair_ctor (x y : Z) : kz Obj :=
  a <- Member_ctor (leaf x) ;;
  b <- Member_ctor (leaf y) ;;
  ret (mkObj 0 [a; b]).

(** A root holding [{a: 1, b: 2}], idle. *)
Definition idle_world : World :=
  run_from (obj <- NewObject_ctor (pair_ctor 1 2) ;; RootObject_ctor obj) empty_world.

(** The same root inside a transaction: blocks 1 and 2 hold [a] and [b],
    block 3 the committed root value and block 4 its private copy. *)
Definition tx_world : World := run_from (beginTransaction 1) idle_world.

Definition sub_ctor (v : Z) : kz Obj :=
  x <- Member_ctor (leaf v) ;;
  ret (mkObj 0 [x]).

(** The default constructor of [struct { Member<Sub> s1; Member<Sub> s2; }]
    where [Sub] is [struct { Member<int> x; }]. *)
Definition nested_ctor : kz Obj :=
  s1 <- Member_ctor (sub_ctor 1) ;;
  s2 <- Member_ctor (sub_ctor 2) ;;
  ret (mkObj 0 [s1; s2]).

(** Such a root, idle: blocks 2 and 4 hold [s1] and [s2], blocks 1 and 3
    their members [x], block 5 the root value. *)
Definition nested_idle_world : World :=
  run_from (obj <- NewObject_ctor nested_ctor ;; RootObject_ctor obj) empty_world.


(** Two transactions in a row on the root of [idle_world], each writing
    one member, with a snapshot taken in between. *)
Definition two_transactions : list Op :=
  [OBegin; OGet 4 0; OWrite 5 5; OEnd; OSnapshot;
   OBegin; OGet 6 1; OWrite 7 9; OEnd].

(** ** More of [NewObject<T>] and [Member<T>] *)

(** Modelled from the spec: [impl::NewObject::openDataEdit] and
    [closeDataEdit] are declared in the header and defined elsewhere.
    They are the hooks called when a write to a new object is opened and
    closed, and do nothing. *)
Definition openDataEdit : kz unit := ret tt.

Definition closeDataEdit : kz unit := ret tt.

(** [NewObject<T>::Write], as returned by [w()]: the constructor opens the
    edit, [operator->] gives the quick pointer to [body], the destructor
    closes the edit. *)
Definition NewObject_w {A} (obj : Data) (body : addr → kz A) : kz A :=
  openDataEdit ;;;
  p <- lift_opt (qdata obj) ;;
  r <- body p ;;
  closeDataEdit ;;;
  ret r.

(** [const T* NewObject<T>::get() const]. *)
Definition NewObject_get (obj : Data) : kz addr := lift_opt (qdata obj).

(** [std::shared_ptr<const T> NewObject<T>::payload() const]. *)
Definition NewObject_payload (obj : Data) : kz (option addr) :=
  acquire (payload obj) ;;;
  ret (payload obj).

(** ** More relations between worlds *)

(** The root member and the committed handle stay, and no use count is
    forgotten. *)
Definition rootR : relation World := λ w w',
  m_root (root w') = m_root (root w)
  ∧ m_detachedRoot (root w') = m_detachedRoot (root w)
  ∧ dom (refs w) ⊆ dom (refs w').

(** ** Well-formed worlds *)

(** A handle as [Data::construct] makes it: the quick pointer is the
    block the shared pointer owns. *)
Definition consistent (d : Data) : Prop :=
  qdata d = payload d ∧ is_Some (payload d).

#[global] Instance consistent_dec d : Decision (consistent d).
Proof. unfold consistent. apply _. Defined.

Definition obj_ok (o : Obj) : Prop := Forall consistent (members o).

Definition src_ok (s : Src) : Prop :=
  match s with
  | InBlock _ => True
  | Local o => obj_ok o
  end.

(** The values a client assigns hold consistent handles. *)
Definition op_ok (op : Op) : Prop :=
  match op with
  | OValueAssign _ _ u => obj_ok u
  | _ => True
  end.

(** Every handle held in a block or in the registry is consistent, and
    the allocator is ahead of every block and use count. *)
Definition world_ok (w : World) : Prop :=
  map_Forall (λ _ o, obj_ok o) (heap w)
  ∧ Forall consistent (m_openEdits (root w))
  ∧ alloc_ok w.

#[global] Instance obj_ok_dec o : Decision (obj_ok o).
Proof. unfold obj_ok. apply _. Defined.

#[global] Instance op_ok_dec op : Decision (op_ok op).
Proof. destruct op; simpl; apply _. Defined.

#[global] Instance world_ok_dec w : Decision (world_ok w).
Proof. unfold world_ok, alloc_ok. apply _. Defined.

(** Runs from well-formed worlds end in well-formed worlds, with a result
    satisfying [Q]. *)
Definition hoare {A} (m : kz A) (Q : A → Prop) : Prop :=
  ∀ w r w', world_ok w → m w = Some (r, w') → world_ok w' ∧ Q r.

(** ** Calls through the pointers of a transaction *)

(** The block [b] is an entry of the open-edits registry. *)
Definition block_registered (b : addr) (w : World) : bool :=
  registered (mkData (Some b) (Some b)) w.

(** Inside a transaction a client has the pointer [beginTransaction]
    returned and the pointers mutable [get]s returned since; these are
    blocks of the registry.  A call is guarded when the pointer it goes
    through is such a block. *)
Definition guarded (op : Op) (w : World) : bool :=
  match op with
  | OGet p _ | OWrite p _ | OCopyAssign p _ _ _ | OValueAssign p _ _ =>
      block_registered p w
  | OSnapshot => true
  | OBegin | OEnd => false
  end.

Definition exec_guarded (fuel : nat) (op : Op) : kz unit :=
  g <- gets (guarded op) ;;
  if g then exec fuel op else fail.

Definition run_guarded (fuel : nat) (ops : list Op) : kz unit :=
  forM_kz (exec_guarded fuel) ops.

(** Blocks outside the registry keep their contents and stay outside;
    the registry is only appended to and the depth stays. *)
Definition isoR : relation World := λ w w',
  (∀ b ob, heap w !! b = Some ob → block_registered b w = false →
     heap w' !! b = Some ob ∧ block_registered b w' = false)
  ∧ m_openEdits (root w) `prefix_of` m_openEdits (root w')
  ∧ depth w' = depth w.

(** Inside transactions only use counts change. *)
Definition quietR : relation World := λ w w',
  depth w ≠ 0 →
  heap w' = heap w ∧ root w' = root w ∧ next w' = next w ∧ depth w' = depth w.

(** From a well-formed world inside a transaction in which [P] holds, a
    run ends in a well-formed world related by [isoR], with a result
    satisfying [Q]. *)
Definition iso (P : World → Prop) {A} (m : kz A) (Q : A → Prop) : Prop :=
  ∀ w r w', world_ok w → depth w ≠ 0 → P w → m w = Some (r, w') →
    world_ok w' ∧ isoR w w' ∧ Q r.

(** [P] survives what [isoR] allows. *)
Definition stable (P : World → Prop) : Prop :=
  ∀ w w', isoR w w' → P w → P w'.

(** ** Evaluation lemmas *)

(** Decidable side conditions of the examples are settled by running
    their decision procedures. *)
Ltac by_computation := apply (bool_decide_unpack _); vm_compute; exact I.

Lemma bind_Some {A B} (m : kz A) (k : A → kz B) w x w' :
  m w = Some (x, w') → bind m k w = k x w'.
Proof. intros H. unfold bind. by rewrite H. Qed.

Lemma bind_inv {A B} (m : kz A) (k : A → kz B) w r :
  bind m k w = Some r → ∃ x w', m w = Some (x, w') ∧ k x w' = Some r.
Proof.
  unfold bind. destruct (m w) as [[x w']|] eqn:E; [|done].
  intros H. by exists x, w'.
Qed.

Lemma with_refs_id w : with_refs (refs w) w = w.
Proof. by destruct w. Qed.

Lemma add_ref_dom p r : dom (add_ref p r) = dom r.
Proof.
  destruct p as [a|]; simpl; [|done].
  destruct (r !! a) as [n|] eqn:E; [|done].
  rewrite dom_insert_L. apply subseteq_union_1_L, singleton_subseteq_l.
  by apply elem_of_dom_2 in E.
Qed.

Lemma drop_ref_dom p r : dom (drop_ref p r) = dom r.
Proof.
  destruct p as [a|]; simpl; [|done].
  destruct (r !! a) as [n|] eqn:E; [|done].
  rewrite dom_insert_L. apply subseteq_union_1_L, singleton_subseteq_l.
  by apply elem_of_dom_2 in E.
Qed.

Lemma add_ref_other p r a : p ≠ Some a → add_ref p r !! a = r !! a.
Proof.
  intros Hp. destruct p as [b|]; simpl; [|done].
  destruct (r !! b); [|done]. rewrite lookup_insert_ne; [done|congruence].
Qed.


Lemma add_ref_same r a n : r !! a = Some n → add_ref (Some a) r !! a = Some (S n).
Proof. intros H. simpl. rewrite H. apply lookup_insert_eq. Qed.

Lemma drop_ref_same r a n : r !! a = Some n → drop_ref (Some a) r !! a = Some (n - 1).
Proof. intros H. simpl. rewrite H. apply lookup_insert_eq. Qed.

Lemma share_all_dom ms r : dom (share_all ms r) = dom r.
Proof.
  unfold share_all. revert r. induction ms as [|m ms IH]; intros r; [done|].
  simpl. by rewrite IH, add_ref_dom.
Qed.

Lemma share_all_other ms r a :
  Some a ∉ payload <$> ms → share_all ms r !! a = r !! a.
Proof.
  unfold share_all. revert r. induction ms as [|m ms IH]; intros r Ha; [done|].
  simpl. rewrite IH.
  - apply add_ref_other. intros Hp. apply Ha. rewrite fmap_cons, Hp. left.
  - intros Hin. apply Ha. rewrite fmap_cons. by right.
Qed.

Lemma live_dom r r' d : dom r = dom r' → live r d → live r' d.
Proof.
  intros Hd Hl a Ha. apply elem_of_dom. rewrite <- Hd. apply elem_of_dom. eauto.
Qed.

Lemma acquire_run w d :
  live (refs w) d →
  acquire (payload d) w = Some (tt, with_refs (add_ref (payload d) (refs w)) w).
Proof.
  intros Hl. unfold acquire, add_ref. destruct (payload d) as [a|] eqn:E.
  - destruct (Hl a E) as [n Hn].
    unfold bind, gets, lift_opt, modify, ret. by rewrite Hn.
  - by rewrite with_refs_id.
Qed.

Lemma release_run w d :
  live (refs w) d →
  release (payload d) w = Some (tt, with_refs (drop_ref (payload d) (refs w)) w).
Proof.
  intros Hl. unfold release, drop_ref. destruct (payload d) as [a|] eqn:E.
  - destruct (Hl a E) as [n Hn].
    unfold bind, gets, lift_opt, modify, ret. by rewrite Hn.
  - by rewrite with_refs_id.
Qed.

(** In a shallow context the copy constructor of a tree value shares every
    member: the copy has the members of the original, and only use counts
    change. *)
Lemma mapM_share Tc ms w :
  depth w ≠ 0 → Forall (live (refs w)) ms →
  mapM_kz (Member_copy_ctor_with Tc) ms w
  = Some (ms, with_refs (share_all ms (refs w)) w).
Proof.
  intros Hd. revert w Hd. induction ms as [|m ms IH]; intros w Hd Hl.
  - simpl. by rewrite with_refs_id.
  - inversion Hl as [|? ? Hm Hms]; subst.
    simpl. unfold bind at 1. unfold Member_copy_ctor_with at 1.
    unfold bind at 1. unfold deep, gets.
    destruct (Nat.eqb_spec (depth w) 0) as [|_]; [done|].
    unfold bind at 1. rewrite (acquire_run w m Hm). unfold ret at 1.
    unfold bind at 1. rewrite IH; [done|done|].
    simpl. eapply Forall_impl; [exact Hms|].
    intros d. apply live_dom. by rewrite add_ref_dom.
Qed.

Lemma T_copy_shallow f o w :
  depth w ≠ 0 → Forall (live (refs w)) (members o) →
  T_copy (S f) o w = Some (o, with_refs (share_all (members o) (refs w)) w).
Proof.
  intros Hd Hl. simpl. unfold bind.
  rewrite (mapM_share (T_copy f) (members o) w Hd Hl).
  unfold ret. by destruct o.
Qed.

Lemma make_shared_run o w :
  make_shared o w
  = Some (next w, set_next Pos.succ
                    (set_refs (insert (next w) 1) (set_heap (insert (next w) o) w))).
Proof. done. Qed.

Lemma Data_construct_run ctor o w w1 :
  ctor w = Some (o, w1) →
  Data_construct ctor w
  = Some (mkData (Some (next w1)) (Some (next w1)),
          set_next Pos.succ
            (set_refs (insert (next w1) 1) (set_heap (insert (next w1) o) w1))).
Proof.
  intros E. unfold Data_construct.
  rewrite (bind_Some _ _ _ _ _ E).
  by rewrite (bind_Some _ _ _ _ _ (make_shared_run o w1)).
Qed.

Lemma openEdit_run d w :
  live (refs w) d →
  openEdit d w
  = Some (tt, set_root (λ r, with_openEdits (m_openEdits r ++ [d]) r)
                (with_refs (add_ref (payload d) (refs w)) w)).
Proof.
  intros Hl. unfold openEdit.
  by rewrite (bind_Some _ _ _ _ _ (acquire_run w d Hl)).
Qed.

Lemma detachWith_run m d w :
  live (refs w) m → live (refs w) d →
  detachWith m d w
  = Some (d, set_root (λ r, with_openEdits (m_openEdits r ++ [d]) r)
               (with_refs (add_ref (payload d) (drop_ref (payload m) (refs w))) w)).
Proof.
  intros Hm Hd. unfold detachWith.
  rewrite (bind_Some _ _ _ _ _ (release_run w m Hm)).
  assert (live (refs (with_refs (drop_ref (payload m) (refs w)) w)) d) as Hd'.
  { simpl. eapply live_dom; [|exact Hd]. by rewrite drop_ref_dom. }
  by rewrite (bind_Some _ _ _ _ _ (openEdit_run d _ Hd')).
Qed.

Lemma construct_copy_run f o w :
  depth w ≠ 0 → Forall (live (refs w)) (members o) →
  Data_construct (T_copy (S f) o) w
  = Some (mkData (Some (next w)) (Some (next w)), copy_world o w).
Proof.
  intros Hd Hms.
  by rewrite (Data_construct_run _ _ _ _ (T_copy_shallow f o w Hd Hms)).
Qed.

Lemma detachWith_copy_run o m w :
  live (refs w) m →
  detachWith m (mkData (Some (next w)) (Some (next w))) (copy_world o w)
  = Some (mkData (Some (next w)) (Some (next w)), detach_world o m w).
Proof.
  intros Hm. rewrite detachWith_run.
  - done.
  - intros b Hb. simpl. apply elem_of_dom.
    rewrite dom_insert_L, share_all_dom. apply elem_of_union_r.
    apply elem_of_dom. eauto.
  - intros b Hb. simpl in Hb. injection Hb as <-. simpl.
    apply elem_of_dom. rewrite dom_insert_L.
    apply elem_of_union_l, elem_of_singleton. done.
Qed.

Lemma construct_detach f o m w :
  depth w ≠ 0 → Forall (live (refs w)) (members o) → live (refs w) m →
  (new <- Data_construct (T_copy (S f) o) ;; detachWith m new) w
  = Some (mkData (Some (next w)) (Some (next w)), detach_world o m w).
Proof.
  intros Hd Hms Hm.
  rewrite (bind_Some _ _ _ _ _ (construct_copy_run f o w Hd Hms)).
  by apply detachWith_copy_run.
Qed.

Lemma registered_app d l w :
  registered d (set_root (with_openEdits (l ++ [d])) w) = true.
Proof.
  unfold registered. simpl. rewrite existsb_app. simpl.
  rewrite bool_decide_eq_true_2; [|done]. by rewrite orb_true_r.
Qed.

(** A member whose handle is registered is detached: [get] returns its
    block and changes nothing. *)
Lemma Member_get_detached fuel m a w :
  depth w ≠ 0 → registered m w = true → qdata m = Some a →
  Member_get fuel m w = Some ((m, a), w).
Proof.
  intros Hd Hr Hq. unfold Member_get, detached, deep, isOpenEdit, bind, gets.
  destruct (Nat.eqb_spec (depth w) 0) as [|_]; [done|].
  fold (registered m w). rewrite Hr. simpl.
  unfold ret, qget. rewrite Hq. done.
Qed.

(** Outside every transaction each member counts as detached. *)
Lemma Member_get_deep fuel m a w :
  depth w = 0 → qdata m = Some a →
  Member_get fuel m w = Some ((m, a), w).
Proof.
  intros Hd Hq. unfold Member_get, detached, deep, bind, gets.
  rewrite Hd. simpl. unfold ret, qget. rewrite Hq. done.
Qed.

(** A shared member inside a transaction: [get] detaches it. *)
Lemma Member_get_shared f m q o w :
  depth w ≠ 0 → registered m w = false →
  qdata m = Some q → heap w !! q = Some o →
  Forall (live (refs w)) (members o) → live (refs w) m →
  Member_get (S f) m w
  = Some ((mkData (Some (next w)) (Some (next w)), next w), detach_world o m w).
Proof.
  intros Hd Hr Hq Ho Hms Hm.
  unfold Member_get.
  assert (detached m w = Some (false, w)) as E1.
  { unfold detached, deep, isOpenEdit, bind, gets.
    destruct (Nat.eqb_spec (depth w) 0) as [|_]; [done|].
    fold (registered m w). by rewrite Hr. }
  rewrite (bind_Some _ _ _ _ _ E1). simpl negb. cbv iota.
  assert (Member_get_const m w = Some (q, w)) as E2.
  { unfold Member_get_const. by rewrite Hq. }
  assert (load q w = Some (o, w)) as E3.
  { unfold load, bind, gets. by rewrite Ho. }
  rewrite (bind_Some _ _ _ (mkData (Some (next w)) (Some (next w)))
             (detach_world o m w)).
  - done.
  - rewrite (bind_Some _ _ _ _ _ E2), (bind_Some _ _ _ _ _ E3).
    by apply construct_detach.
Qed.

(** ** What client calls leave unchanged *)

Lemma bind_assoc {A B C} (m : kz A) (k : A → kz B) (k' : B → kz C) w :
  bind (bind m k) k' w = bind m (λ x, bind (k x) k') w.
Proof. unfold bind. by destruct (m w) as [[x w1]|]. Qed.

Lemma load_inv a w o w' : load a w = Some (o, w') → w' = w ∧ heap w !! a = Some o.
Proof.
  unfold load, bind, gets. destruct (heap w !! a) as [o0|]; [|done].
  by intros [= <- <-].
Qed.

Lemma read_src_inv s w o w' : read_src s w = Some (o, w') → w' = w.
Proof.
  destruct s as [a|o0]; simpl.
  - intros E. by destruct (load_inv _ _ _ _ E).
  - by intros [= _ <-].
Qed.

Lemma detached_deep m w : depth w = 0 → detached m w = Some (true, w).
Proof. intros Hd. unfold detached, deep, bind, gets. by rewrite Hd. Qed.

Lemma detached_shallow m w :
  depth w ≠ 0 → detached m w = Some (registered m w, w).
Proof.
  intros Hd. unfold detached, deep, isOpenEdit, bind, gets.
  by destruct (Nat.eqb_spec (depth w) 0).
Qed.

Lemma detached_inv m w b w' :
  detached m w = Some (b, w') →
  w' = w ∧ (b = false → depth w ≠ 0 ∧ registered m w = false).
Proof.
  destruct (Nat.eq_dec (depth w) 0) as [Hd|Hd].
  - rewrite (detached_deep m w Hd). intros [= <- <-]. done.
  - rewrite (detached_shallow m w Hd). intros [= <- <-]. done.
Qed.

Section Respects.
Context (R : relation World) `{!PreOrder R}.

Lemma respects_ret {A} (x : A) : respects R (ret x).
Proof. intros w r w' [= <- <-]. reflexivity. Qed.

Lemma respects_fail {A} : respects R (@fail A).
Proof. intros w r w' E. discriminate E. Qed.

Lemma respects_gets {A} (f : World → A) : respects R (gets f).
Proof. intros w r w' [= <- <-]. reflexivity. Qed.

Lemma respects_lift_opt {A} (o : option A) : respects R (lift_opt o).
Proof. destruct o; [apply respects_ret | apply respects_fail]. Qed.

Lemma respects_bind {A B} (m : kz A) (k : A → kz B) :
  respects R m → (∀ x, respects R (k x)) → respects R (bind m k).
Proof.
  intros Hm Hk w r w' E.
  destruct (bind_inv _ _ _ _ E) as (x & w1 & E1 & E2).
  transitivity w1; [exact (Hm _ _ _ E1) | exact (Hk x _ _ _ E2)].
Qed.

Lemma respects_mapM {A B} (g : A → kz B) (l : list A) :
  (∀ x, respects R (g x)) → respects R (mapM_kz g l).
Proof.
  intros Hg. induction l as [|x l IH]; simpl.
  - apply respects_ret.
  - apply respects_bind; [done|]. intros y.
    apply respects_bind; [done|]. intros ys. apply respects_ret.
Qed.

Lemma respects_forM {A} (g : A → kz unit) (l : list A) :
  (∀ x, respects R (g x)) → respects R (forM_kz g l).
Proof.
  intros Hg. induction l as [|x l IH]; simpl.
  - apply respects_ret.
  - apply respects_bind; [done|]. intros _. done.
Qed.

Lemma respects_load a : respects R (load a).
Proof.
  apply respects_bind; [apply respects_gets|]. intros h. apply respects_lift_opt.
Qed.

Lemma respects_read_src s : respects R (read_src s).
Proof. destruct s; [apply respects_load | apply respects_ret]. Qed.

(** Writing a block that exists. *)
Hypothesis R_store :
  ∀ a o o0 w, heap w !! a = Some o0 → R w (set_heap (insert a o) w).

Lemma respects_store a o : respects R (store a o).
Proof.
  intros w r w' E. unfold store in E.
  destruct (bind_inv _ _ _ _ E) as (o0 & w1 & E1 & E2).
  destruct (load_inv _ _ _ _ E1) as [-> Ho].
  unfold modify in E2. injection E2 as _ <-.
  by apply (R_store a o o0).
Qed.

Lemma respects_set_member p i m : respects R (set_member p i m).
Proof.
  apply respects_bind; [apply respects_load|]. intros o. apply respects_store.
Qed.

Lemma respects_write_plain p v : respects R (write_plain p v).
Proof.
  apply respects_bind; [apply respects_load|]. intros o. apply respects_store.
Qed.

Lemma respects_in_member {A} p i (op : Data → kz (Data * A)) :
  (∀ m, respects R (op m)) → respects R (in_member p i op).
Proof.
  intros Hop. apply respects_bind; [apply respects_load|]. intros o.
  apply respects_bind; [apply respects_lift_opt|]. intros m.
  apply respects_bind; [done|]. intros r.
  apply respects_bind; [apply respects_set_member|]. intros _. apply respects_ret.
Qed.

(** The branch on [detached]: the shared branch runs only inside a
    transaction. *)
Lemma respects_if_detached {A} m (yes no : kz A) :
  respects R yes →
  (∀ w r w', depth w ≠ 0 → no w = Some (r, w') → R w w') →
  respects R (d <- detached m ;; if d then yes else no).
Proof.
  intros Hy Hn w r w' E.
  destruct (bind_inv _ _ _ _ E) as (d & w1 & E1 & E2).
  destruct (detached_inv _ _ _ _ E1) as [-> Hsh].
  destruct d.
  - exact (Hy _ _ _ E2).
  - destruct (Hsh eq_refl) as [Hd _]. exact (Hn _ _ _ Hd E2).
Qed.

(** Detaching a shared member with a copy, inside a transaction. *)
Hypothesis R_detach_copy :
  ∀ fuel o m w r w', depth w ≠ 0 →
    (new <- Data_construct (T_copy fuel o) ;; detachWith m new) w = Some (r, w') →
    R w w'.

Lemma respects_Member_assign_with Tassign fuel m s :
  (∀ q s', respects R (Tassign q s')) →
  respects R (Member_assign_with Tassign (T_ctor fuel) m s).
Proof.
  intros Ha. apply respects_if_detached.
  - apply respects_bind; [apply respects_lift_opt|]. intros q.
    apply respects_bind; [done|]. intros _. apply respects_ret.
  - intros w r w' Hd E. unfold Data_construct, T_ctor in E.
    rewrite !bind_assoc in E.
    destruct (bind_inv _ _ _ _ E) as (o & w1 & E1 & E2).
    apply read_src_inv in E1 as ->.
    apply (R_detach_copy fuel o m w r w' Hd).
    unfold Data_construct. by rewrite !bind_assoc.
Qed.

Lemma respects_T_assign fuel tgt s : respects R (T_assign fuel tgt s).
Proof.
  revert tgt s. induction fuel as [|f IH]; intros tgt s; simpl.
  - apply respects_fail.
  - apply respects_bind; [apply respects_read_src|]. intros so.
    apply respects_bind; [apply respects_load|]. intros to.
    apply respects_bind; [apply respects_store|]. intros _.
    apply respects_forM. intros i.
    apply respects_bind; [apply respects_read_src|]. intros so'.
    apply respects_bind; [apply respects_lift_opt|]. intros sm.
    apply respects_bind; [apply respects_load|]. intros to'.
    apply respects_bind; [apply respects_lift_opt|]. intros tm.
    apply respects_bind; [apply respects_lift_opt|]. intros sq.
    apply respects_bind; [|intros tm'; apply respects_set_member].
    by apply respects_Member_assign_with.
Qed.

Lemma respects_Member_copy_assign fuel m other :
  respects R (Member_copy_assign fuel m other).
Proof.
  apply respects_if_detached.
  - apply respects_bind; [apply respects_lift_opt|]. intros q.
    apply respects_bind; [apply respects_lift_opt|]. intros sq.
    apply respects_bind; [apply respects_T_assign|]. intros _. apply respects_ret.
  - intros w r w' Hd E.
    destruct (bind_inv _ _ _ _ E) as (sq & w1 & E1 & E2).
    unfold Member_get_const in E1. destruct (qdata other); [|done].
    injection E1 as <- <-.
    destruct (bind_inv _ _ _ _ E2) as (o & w1 & E3 & E4).
    destruct (load_inv _ _ _ _ E3) as [-> _].
    by apply (R_detach_copy fuel o m w r w' Hd).
Qed.

Lemma respects_Member_value_assign fuel m u :
  respects R (Member_value_assign fuel m u).
Proof.
  apply respects_if_detached.
  - apply respects_bind; [apply respects_lift_opt|]. intros q.
    apply respects_bind; [apply respects_T_assign|]. intros _. apply respects_ret.
  - intros w r w' Hd E. by apply (R_detach_copy fuel u m w r w' Hd).
Qed.

Lemma respects_Member_get fuel m : respects R (Member_get fuel m).
Proof.
  unfold Member_get. intros w r w' E.
  destruct (bind_inv _ _ _ _ E) as (d & w1 & E1 & E2).
  destruct (detached_inv _ _ _ _ E1) as [-> Hsh].
  destruct (bind_inv _ _ _ _ E2) as (m' & w2 & E3 & E4).
  assert (respects R (p <- qget m' ;; ret (m', p))) as Hk.
  { apply respects_bind; [apply respects_lift_opt|]. intros p. apply respects_ret. }
  transitivity w2; [|exact (Hk _ _ _ E4)].
  destruct d; simpl in E3.
  - injection E3 as <- <-. reflexivity.
  - destruct (Hsh eq_refl) as [Hd _].
    destruct (bind_inv _ _ _ _ E3) as (q & w3 & E5 & E6).
    unfold Member_get_const in E5. destruct (qdata m); [|done].
    injection E5 as <- <-.
    destruct (bind_inv _ _ _ _ E6) as (o & w3 & E7 & E8).
    destruct (load_inv _ _ _ _ E7) as [-> _].
    by apply (R_detach_copy fuel o m w m' w2 Hd).
Qed.

(** Every call on a member or through a pointer. *)
Lemma respects_exec_member fuel op :
  is_member_op op = true → respects R (exec fuel op).
Proof.
  destruct op; try done; intros _; simpl.
  - apply respects_bind; [|intros; apply respects_ret].
    apply respects_in_member. intros m. apply respects_Member_get.
  - apply respects_write_plain.
  - apply respects_bind; [apply respects_load|]. intros o'.
    apply respects_bind; [apply respects_lift_opt|]. intros other.
    apply respects_in_member. intros m.
    apply respects_bind; [apply respects_Member_copy_assign|].
    intros m'. apply respects_ret.
  - apply respects_in_member. intros m.
    apply respects_bind; [apply respects_Member_value_assign|].
    intros m'. apply respects_ret.
Qed.
End Respects.

#[global] Instance stepR_preorder : PreOrder stepR.
Proof.
  split.
  - intros w. unfold stepR. done.
  - intros w1 w2 w3 (M1 & D1 & P1) (M2 & D2 & P2). unfold stepR.
    split; [congruence|]. split; [congruence|]. by transitivity (m_openEdits (root w2)).
Qed.

#[global] Instance keepsR_preorder : PreOrder keepsR.
Proof.
  split.
  - intros w. unfold keepsR. done.
  - intros w1 w2 w3 (M1 & D1 & P1) (M2 & D2 & P2). unfold keepsR.
    split; [congruence|]. split; [congruence|].
    intros Hd. rewrite P2; [by apply P1|congruence].
Qed.

#[global] Instance inplaceR_preorder : PreOrder inplaceR.
Proof.
  split.
  - intros w Hd. done.
  - intros w1 w2 w3 H1 H2 Hd.
    destruct (H1 Hd) as (N1 & F1 & R1 & D1 & Dm1).
    destruct (H2 D1) as (N2 & F2 & R2 & D2 & Dm2).
    repeat split; congruence.
Qed.

#[global] Instance growR_preorder : PreOrder growR.
Proof.
  split.
  - intros w. unfold growR. done.
  - intros w1 w2 w3 (D1 & P1) (D2 & P2). unfold growR.
    split; [auto|]. by transitivity (m_openEdits (root w2)).
Qed.

Lemma stepR_keepsR w w' : depth w ≠ 0 → stepR w w' → keepsR w w'.
Proof. intros Hd (M & D & _). unfold keepsR. done. Qed.

Lemma stepR_growR w w' : stepR w w' → growR w w'.
Proof. intros (M & D & P). unfold growR. split; [congruence|done]. Qed.

Lemma respects_modify_stepR (f : World → World) :
  (∀ w, m_transactionMutex (root (f w)) = m_transactionMutex (root w)
        ∧ depth (f w) = depth w
        ∧ m_openEdits (root w) `prefix_of` m_openEdits (root (f w))) →
  respects stepR (modify f).
Proof. intros Hf w r w' [= <- <-]. apply Hf. Qed.

Lemma stepR_acquire p : respects stepR (acquire p).
Proof.
  destruct p as [a|]; simpl; [|apply respects_ret; apply _].
  apply respects_bind; [apply _| |].
  - apply respects_bind; [apply _|apply respects_gets; apply _|].
    intros r. apply respects_lift_opt; apply _.
  - intros n. by apply respects_modify_stepR.
Qed.

Lemma stepR_release p : respects stepR (release p).
Proof.
  destruct p as [a|]; simpl; [|apply respects_ret; apply _].
  apply respects_bind; [apply _| |].
  - apply respects_bind; [apply _|apply respects_gets; apply _|].
    intros r. apply respects_lift_opt; apply _.
  - intros n. by apply respects_modify_stepR.
Qed.

Lemma stepR_make_shared o : respects stepR (make_shared o).
Proof.
  apply respects_bind; [apply _|apply respects_gets; apply _|]. intros a.
  apply respects_bind; [apply _|by apply respects_modify_stepR|].
  intros _. apply respects_ret; apply _.
Qed.

Lemma stepR_Data_construct ctor :
  respects stepR ctor → respects stepR (Data_construct ctor).
Proof.
  intros Hc. apply respects_bind; [apply _|done|]. intros o.
  apply respects_bind; [apply _|apply stepR_make_shared|]. intros a.
  apply respects_ret; apply _.
Qed.

Lemma stepR_detachWith m d : respects stepR (detachWith m d).
Proof.
  apply respects_bind; [apply _|apply stepR_release|]. intros _.
  apply respects_bind; [apply _| |intros _; apply respects_ret; apply _].
  apply respects_bind; [apply _|apply stepR_acquire|]. intros _.
  apply respects_modify_stepR. intros w. simpl.
  split; [done|]. split; [done|]. by apply prefix_app_r.
Qed.

Lemma stepR_Member_copy_ctor_with Tc other :
  (∀ o, respects stepR (Tc o)) → respects stepR (Member_copy_ctor_with Tc other).
Proof.
  intros HTc. apply respects_bind; [apply _|apply respects_gets; apply _|].
  intros d. destruct d.
  - apply respects_bind; [apply _|apply respects_lift_opt; apply _|]. intros q.
    apply respects_bind; [apply _|apply respects_load; apply _|]. intros o.
    by apply stepR_Data_construct.
  - apply respects_bind; [apply _|apply stepR_acquire|]. intros _.
    apply respects_ret; apply _.
Qed.

Lemma stepR_T_copy fuel o : respects stepR (T_copy fuel o).
Proof.
  revert o. induction fuel as [|f IH]; intros o; simpl.
  - apply respects_fail.
  - apply respects_bind; [apply _| |].
    + apply respects_mapM; [apply _|]. intros m.
      by apply stepR_Member_copy_ctor_with.
    + intros ms. apply respects_ret; apply _.
Qed.

Lemma stepR_detach_copy fuel o m :
  respects stepR (new <- Data_construct (T_copy fuel o) ;; detachWith m new).
Proof.
  apply respects_bind; [apply _| |].
  - apply stepR_Data_construct, stepR_T_copy.
  - intros new. apply stepR_detachWith.
Qed.

Lemma stepR_store a o o0 w :
  heap w !! a = Some o0 → stepR w (set_heap (insert a o) w).
Proof. intros _. unfold stepR. done. Qed.

(** Calls on members change neither mutex nor depth and only append to
    the registry. *)
Lemma stepR_exec_member fuel op :
  is_member_op op = true → respects stepR (exec fuel op).
Proof.
  apply respects_exec_member.
  - apply _.
  - apply stepR_store.
  - intros f o m w r w' _ E. exact (stepR_detach_copy f o m w r w' E).
Qed.

(** Outside transactions they moreover leave the registry alone. *)
Lemma keepsR_exec_member fuel op :
  is_member_op op = true → respects keepsR (exec fuel op).
Proof.
  apply respects_exec_member.
  - apply _.
  - intros a o o0 w _. unfold keepsR. done.
  - intros f o m w r w' Hd E. apply stepR_keepsR; [done|].
    exact (stepR_detach_copy f o m w r w' E).
Qed.




Lemma stepR_detachedPayload : respects stepR detachedPayload.
Proof.
  apply respects_bind; [apply _|apply respects_gets; apply _|]. intros p.
  apply respects_bind; [apply _|apply stepR_acquire|]. intros _.
  apply respects_ret; apply _.
Qed.

Lemma acquire_inv p w w' :
  acquire p w = Some (tt, w') → root w' = root w ∧ depth w' = depth w.
Proof.
  destruct p as [a|]; simpl.
  - unfold bind, gets, lift_opt, modify, ret.
    destruct (refs w !! a); [|done]. by intros [= <-].
  - by intros [= <-].
Qed.

Lemma keepsR_detachedPayload : respects keepsR detachedPayload.
Proof.
  intros w p w' E. unfold detachedPayload, detachedRoot in E.
  destruct (bind_inv _ _ _ _ E) as (p0 & w1 & E1 & E2). injection E1 as <- <-.
  destruct (bind_inv _ _ _ _ E2) as ([] & w2 & E3 & E4). injection E4 as <- <-.
  destruct (acquire_inv _ _ _ E3) as [Hr Hd]. unfold keepsR. by rewrite Hr, Hd.
Qed.

Lemma beginTransaction_inv fuel w p w' :
  beginTransaction fuel w = Some (p, w') →
  m_transactionMutex (root w) = false
  ∧ m_transactionMutex (root w') = true
  ∧ depth w' = S (depth w)
  ∧ m_openEdits (root w) `prefix_of` m_openEdits (root w').
Proof.
  unfold beginTransaction. intros E.
  destruct (bind_inv _ _ _ _ E) as ([] & w0 & E0 & E1).
  unfold impl_beginTransaction, bind, gets in E0.
  destruct (m_transactionMutex (root w)) eqn:Hl; [discriminate E0|].
  injection E0 as <-.
  assert (respects stepR
            (r <- gets (λ w, m_root (root w)) ;;
             q <- lift_opt (qdata r) ;;
             o <- load q ;;
             new <- Data_construct (T_copy fuel o) ;;
             r' <- detachWith r new ;;
             modify (set_root (with_m_root r')) ;;;
             lift_opt (qdata r'))) as Hc.
  { apply respects_bind; [apply _|apply respects_gets; apply _|]. intros r.
    apply respects_bind; [apply _|apply respects_lift_opt; apply _|]. intros q.
    apply respects_bind; [apply _|apply respects_load; apply _|]. intros o.
    apply respects_bind; [apply _|apply stepR_Data_construct, stepR_T_copy|].
    intros new. apply respects_bind; [apply _|apply stepR_detachWith|]. intros r'.
    apply respects_bind; [apply _| |intros _; apply respects_lift_opt; apply _].
    by apply respects_modify_stepR. }
  destruct (Hc _ _ _ E1) as (M & D & P). simpl in M, D, P. done.
Qed.

Lemma endTransaction_inv w w' :
  endTransaction w = Some (tt, w') →
  m_transactionMutex (root w) = true
  ∧ m_transactionMutex (root w') = false
  ∧ depth w' = Nat.pred (depth w)
  ∧ m_openEdits (root w') = [].
Proof.
  unfold endTransaction, impl_endTransaction. intros E.
  destruct (bind_inv _ _ _ _ E) as (l & w0 & E0 & E1).
  injection E0 as <- <-.
  destruct (m_transactionMutex (root w)) eqn:Hl; [|discriminate E1].
  simpl in E1.
  destruct (bind_inv _ _ _ _ E1) as (r & w1 & E2 & E3). injection E2 as <- <-.
  destruct (bind_inv _ _ _ _ E3) as ([] & w2 & E4 & E5).
  destruct (bind_inv _ _ _ _ E5) as ([] & w3 & E6 & E7).
  destruct (bind_inv _ _ _ _ E7) as ([] & w4 & E8 & E9). injection E8 as <-.
  destruct (bind_inv _ _ _ _ E9) as ([] & w5 & E10 & E11).
  destruct (bind_inv _ _ _ _ E11) as ([] & w6 & E12 & E13). injection E12 as <-.
  injection E13 as <-.
  destruct (stepR_acquire _ _ _ _ E4) as (_ & D2 & _).
  destruct (stepR_release _ _ _ _ E6) as (_ & D3 & _).
  assert (respects stepR
            (forM_kz (λ e, release (payload e)) (m_openEdits (root w)))) as Hk.
  { apply respects_forM; [apply _|]. intros e. apply stepR_release. }
  destruct (Hk _ _ _ E10) as (_ & D5 & _). simpl in D5.
  simpl. split; [done|]. split; [done|]. split; [congruence|done].
Qed.

(** Between a [beginTransaction] and the [endTransaction] that follows
    it, calls only append to the registry and the depth stays nonzero. *)
Lemma growR_exec fuel op : op ≠ OEnd → respects growR (exec fuel op).
Proof.
  intros Hne w r w' E.
  destruct (is_member_op op) eqn:Hop.
  - apply stepR_growR. exact (stepR_exec_member fuel op Hop _ _ _ E).
  - destruct op; try done; simpl in E.
    + destruct (bind_inv _ _ _ _ E) as (p & w1 & E1 & E2). injection E2 as _ <-.
      destruct (beginTransaction_inv _ _ _ _ E1) as (_ & _ & D & P).
      unfold growR. split; [lia|done].
    + destruct (bind_inv _ _ _ _ E) as (p & w1 & E1 & E2). injection E2 as _ <-.
      apply stepR_growR. exact (stepR_detachedPayload _ _ _ E1).
Qed.

Lemma growR_run fuel ops : OEnd ∉ ops → respects growR (run fuel ops).
Proof.
  intros Hno. unfold run. induction ops as [|op ops IH]; simpl.
  - apply respects_ret; apply _.
  - apply respects_bind; [apply _| |].
    + apply growR_exec. intros ->. apply Hno. left.
    + intros _. apply IH. intros Hin. apply Hno. by right.
Qed.

Lemma registered_prefix d w w' :
  m_openEdits (root w) `prefix_of` m_openEdits (root w') →
  registered d w = true → registered d w' = true.
Proof.
  intros [l Hl]. unfold registered. rewrite Hl, existsb_app.
  intros ->. done.
Qed.

(** **** C1 *)

(** C1: inside a transaction the first mutable [get] of a shared member
    allocates exactly one block, at a fresh address, that holds a copy of
    the member's value; the new handle is appended to the open-edits
    registry and the pointer returned is the new block.  Whenever that
    handle is still registered, and so after any calls that do not end
    the transaction, a further [get] returns the same block and leaves
    the whole world, allocator included, as it is. *)
Theorem Member_get_copies_once (f : nat) (m : Data) (q : addr) (o : Obj) (w : World) :
  depth w ≠ 0 → registered m w = false →
  qdata m = Some q → heap w !! q = Some o →
  Forall (live (refs w)) (members o) → live (refs w) m →
  heap w !! next w = None →
  let a := next w in
  let m' := mkData (Some a) (Some a) in
  ∃ w', Member_get (S f) m w = Some ((m', a), w')
      ∧ a ≠ q
      ∧ heap w' = <[a := o]> (heap w)
      ∧ next w' = Pos.succ (next w)
      ∧ m_openEdits (root w') = m_openEdits (root w) ++ [m']
      ∧ depth w' = depth w
      ∧ Member_get (S f) m' w' = Some ((m', a), w')
      ∧ (∀ fuel w2, depth w2 ≠ 0 → registered m' w2 = true →
           Member_get fuel m' w2 = Some ((m', a), w2))
      ∧ ∀ fuel ops w2, OEnd ∉ ops → run fuel ops w' = Some (tt, w2) →
          Member_get fuel m' w2 = Some ((m', a), w2).
Proof.
  intros Hd Hr Hq Ho Hms Hm Hfresh a m'.
  assert (registered m' (detach_world o m w) = true) as Hreg
    by apply (registered_app m' (m_openEdits (root w))).
  exists (detach_world o m w).
  split; [|split; [|split; [|split; [|split; [|split; [|split; [|split]]]]]]].
  - by apply (Member_get_shared f m q o w).
  - intros Heq. unfold a in Heq. rewrite Heq in Hfresh. congruence.
  - done.
  - done.
  - done.
  - done.
  - by apply Member_get_detached.
  - intros fuel w2 Hd2 Hr2. by apply Member_get_detached.
  - intros fuel ops w2 Hno Hrun.
    destruct (growR_run fuel ops Hno _ _ _ Hrun) as [Hd2 Hpre].
    apply Member_get_detached; [by apply Hd2| |done].
    by apply (registered_prefix m' (detach_world o m w)).
Qed.

Lemma Member_get_copies_once_witness :
  let m' := mkData (Some 5%positive) (Some 5%positive) in
  ∃ w' w2, Member_get 1 (mkData (Some 1%positive) (Some 1%positive)) tx_world
           = Some ((m', 5%positive), w')
         ∧ next w' = 6%positive
         ∧ run 1 [OWrite 5 9; OGet 4 1; OSnapshot] w' = Some (tt, w2)
         ∧ Member_get 1 m' w2 = Some ((m', 5%positive), w2).
Proof.
  simpl.
  destruct (Member_get_copies_once 0 (mkData (Some 1%positive) (Some 1%positive))
              1%positive (mkObj 1 []) tx_world)
    as (w' & E & _ & _ & Hn & _ & _ & E' & _ & Hrun).
  - vm_compute. lia.
  - vm_compute. reflexivity.
  - reflexivity.
  - vm_compute. reflexivity.
  - by_computation.
  - by_computation.
  - vm_compute. reflexivity.
  - destruct (run 1 [OWrite 5 9; OGet 4 1; OSnapshot] w') as [[[] w2]|] eqn:E2.
    + exists w', w2. split; [exact E|]. split; [exact Hn|]. split; [exact E2|].
      apply (Hrun 1 [OWrite 5 9; OGet 4 1; OSnapshot] w2); [|exact E2].
      intros Hin. apply list_elem_of_In in Hin. simpl in Hin.
      destruct Hin as [H|[H|[H|[]]]]; discriminate H.
    + vm_compute in E. injection E as <-. vm_compute in E2. discriminate E2.
Defined.

(** ** Deep copies *)

Lemma alloc_ok_fresh w : alloc_ok w → heap w !! next w = None ∧ refs w !! next w = None.
Proof.
  intros [Hh Hr]. split.
  - destruct (heap w !! next w) as [o|] eqn:E; [|done].
    pose proof (map_Forall_lookup_1 _ _ _ _ Hh E) as Hlt. simpl in Hlt. lia.
  - destruct (refs w !! next w) as [n|] eqn:E; [|done].
    pose proof (map_Forall_lookup_1 _ _ _ _ Hr E) as Hlt. simpl in Hlt. lia.
Qed.

Lemma frame_refl w : frame w w.
Proof. unfold frame. repeat split; done. Qed.

Lemma frame_trans w1 w2 w3 : frame w1 w2 → frame w2 w3 → frame w1 w3.
Proof.
  intros (D1 & R1 & H1 & F1 & N1) (D2 & R2 & H2 & F2 & N2).
  unfold frame. repeat split.
  - congruence.
  - congruence.
  - by transitivity (heap w2).
  - by transitivity (refs w2).
  - lia.
Qed.

Lemma make_shared_frame o w :
  alloc_ok w →
  ∃ w', make_shared o w = Some (next w, w')
        ∧ frame w w' ∧ alloc_ok w'
        ∧ heap w' !! next w = Some o ∧ refs w' !! next w = Some 1
        ∧ next w' = Pos.succ (next w).
Proof.
  intros Hok. destruct (alloc_ok_fresh w Hok) as [Hh Hr].
  eexists. split; [apply make_shared_run|].
  split; [|split; [|split; [|split]]].
  - unfold frame. simpl. repeat split.
    + by apply insert_subseteq.
    + by apply insert_subseteq.
    + lia.
  - destruct Hok as [Ah Ar]. split; simpl.
    + apply map_Forall_insert_2; [lia|].
      eapply map_Forall_impl; [exact Ah|]. simpl. intros; lia.
    + apply map_Forall_insert_2; [lia|].
      eapply map_Forall_impl; [exact Ar|]. simpl. intros; lia.
  - simpl. apply lookup_insert_eq.
  - simpl. apply lookup_insert_eq.
  - done.
Qed.

Lemma denote_S k h a :
  denote (S k) h a = (o ← h !! a; denote_obj (denote k h) o).
Proof.
  unfold denote. simpl.
  destruct (Pos.leb_spec 1 a) as [_|Hlt]; [done|]. lia.
Qed.

Lemma denote_from_mono lo lo' n h h' a t :
  h ⊆ h' → (lo ≤ lo')%positive →
  denote_from lo' n h a = Some t → denote_from lo n h' a = Some t.
Proof.
  intros Hsub Hlo. revert a t. induction n as [|n IH]; intros a t; [done|].
  simpl. destruct (Pos.leb_spec lo' a) as [Hle|]; [|done].
  destruct (Pos.leb_spec lo a) as [_|]; [|lia].
  destruct (h !! a) as [o|] eqn:E; [|done].
  rewrite (lookup_weaken _ _ _ _ E Hsub). simpl.
  unfold denote_obj.
  destruct (mapM (denote_member (denote_from lo' n h)) (members o)) as [kids|] eqn:Ek;
    [|done].
  simpl. intros [= <-].
  apply mapM_Some in Ek.
  assert (mapM (denote_member (denote_from lo n h')) (members o) = Some kids) as ->;
    [|done].
  apply mapM_Some. eapply Forall2_impl; [exact Ek|].
  intros m tm. unfold denote_member. destruct (qdata m) as [q|]; [|done].
  simpl. apply IH.
Qed.

Lemma denote_member_mono lo lo' n h h' m t :
  h ⊆ h' → (lo ≤ lo')%positive →
  denote_member (denote_from lo' n h) m = Some t →
  denote_member (denote_from lo n h') m = Some t.
Proof.
  intros Hsub Hlo. unfold denote_member. destruct (qdata m) as [q|]; [|done].
  simpl. by apply denote_from_mono.
Qed.

(** Copying a list of members one by one, given what copying one does. *)
Lemma mapM_deep (g : Data → kz Data) (k : nat) :
  (∀ m w t, depth w = 0 → alloc_ok w →
     denote_member (denote k (heap w)) m = Some t →
     ∃ m' w', g m w = Some (m', w')
              ∧ denote_member (denote_from (next w) k (heap w')) m' = Some t
              ∧ frame w w' ∧ alloc_ok w') →
  ∀ ms w kids, depth w = 0 → alloc_ok w →
    mapM (denote_member (denote k (heap w))) ms = Some kids →
    ∃ ms' w', mapM_kz g ms w = Some (ms', w')
              ∧ mapM (denote_member (denote_from (next w) k (heap w'))) ms' = Some kids
              ∧ frame w w' ∧ alloc_ok w'.
Proof.
  intros Hg ms. induction ms as [|m ms IH]; intros w kids Hd Hok Hk.
  - exists [], w. simpl in *. split; [done|]. split; [done|].
    split; [apply frame_refl|done].
  - apply mapM_Some in Hk. inversion Hk as [|? t ? kids' Hm Hms]; subst.
    destruct (Hg m w t Hd Hok Hm) as (m' & w1 & E1 & D1 & F1 & A1).
    assert (depth w1 = 0) as Hd1 by (destruct F1 as (-> & _); done).
    destruct (IH w1 kids' Hd1 A1) as (ms' & w2 & E2 & D2 & F2 & A2).
    { apply mapM_Some. eapply Forall2_impl; [exact Hms|].
      intros x y. apply denote_member_mono; [apply F1|lia]. }
    exists (m' :: ms'), w2. split; [|split; [|split]].
    + simpl. rewrite (bind_Some _ _ _ _ _ E1), (bind_Some _ _ _ _ _ E2). done.
    + apply mapM_Some. constructor.
      * eapply denote_member_mono; [apply F2| |exact D1]. lia.
      * apply mapM_Some in D2. eapply Forall2_impl; [exact D2|].
        intros x y. apply denote_member_mono; [done|apply F1].
    + by eapply frame_trans.
    + done.
Qed.

(** Copying one member in a deep context, given what the copy constructor
    of its value does. *)
Lemma Member_copy_ctor_with_deep (Tc : Obj → kz Obj) (k : nat) :
  (∀ o w t, depth w = 0 → alloc_ok w →
     denote_obj (denote k (heap w)) o = Some t →
     ∃ o' w', Tc o w = Some (o', w')
              ∧ denote_obj (denote_from (next w) k (heap w')) o' = Some t
              ∧ frame w w' ∧ alloc_ok w') →
  ∀ m w t, depth w = 0 → alloc_ok w →
    denote_member (denote (S k) (heap w)) m = Some t →
    ∃ a w', Member_copy_ctor_with Tc m w = Some (mkData (Some a) (Some a), w')
            ∧ denote_from (next w) (S k) (heap w') a = Some t
            ∧ frame w w' ∧ alloc_ok w'
            ∧ (next w ≤ a)%positive ∧ refs w' !! a = Some 1.
Proof.
  intros HTc m w t Hd Hok Hm.
  unfold denote_member in Hm. destruct (qdata m) as [q|] eqn:Eq; [|done].
  cbn [mbind option_bind] in Hm. rewrite denote_S in Hm.
  destruct (heap w !! q) as [o|] eqn:Eo; [|done]. simpl in Hm.
  destruct (HTc o w t Hd Hok Hm) as (o' & w1 & E1 & D1 & F1 & A1).
  destruct (make_shared_frame o' w1 A1) as (w2 & E2 & F2 & A2 & Ho' & Hr' & Hn).
  assert (next w ≤ next w1)%positive as Hle by apply F1.
  exists (next w1), w2. split; [|split; [|split; [|split; [|split]]]].
  - unfold Member_copy_ctor_with, deep, bind at 1, gets. rewrite Hd. simpl.
    assert (Member_get_const m w = Some (q, w)) as E3.
    { unfold Member_get_const. by rewrite Eq. }
    assert (load q w = Some (o, w)) as E4.
    { unfold load, bind, gets. by rewrite Eo. }
    rewrite (bind_Some _ _ _ _ _ E3), (bind_Some _ _ _ _ _ E4).
    unfold Data_construct.
    rewrite (bind_Some _ _ _ _ _ E1), (bind_Some _ _ _ _ _ E2). done.
  - simpl. destruct (Pos.leb_spec (next w) (next w1)) as [_|]; [|lia].
    rewrite Ho'. simpl.
    unfold denote_obj in *.
    destruct (mapM (denote_member (denote_from (next w) k (heap w1))) (members o'))
      as [kids|] eqn:Ek; [|done].
    simpl in D1. injection D1 as <-.
    assert (mapM (denote_member (denote_from (next w) k (heap w2))) (members o')
            = Some kids) as ->; [|done].
    apply mapM_Some. apply mapM_Some in Ek. eapply Forall2_impl; [exact Ek|].
    intros x y. apply denote_member_mono; [apply F2|lia].
  - by eapply frame_trans.
  - done.
  - done.
  - done.
Qed.

Lemma T_copy_deep (k : nat) :
  ∀ o w t, depth w = 0 → alloc_ok w →
    denote_obj (denote k (heap w)) o = Some t →
    ∃ o' w', T_copy (S k) o w = Some (o', w')
             ∧ denote_obj (denote_from (next w) k (heap w')) o' = Some t
             ∧ frame w w' ∧ alloc_ok w'.
Proof.
  induction k as [|k IH]; intros o w t Hd Hok Ho.
  - unfold denote_obj in Ho.
    destruct (members o) as [|m ms] eqn:Em.
    + exists o, w. split; [|split; [|split]].
      * simpl. rewrite Em. simpl. unfold bind, ret. by destruct o; simpl in *; subst.
      * unfold denote_obj. by rewrite Em.
      * apply frame_refl.
      * done.
    + simpl in Ho. unfold denote_member in Ho. by destruct (qdata m).
  - unfold denote_obj in Ho.
    destruct (mapM (denote_member (denote (S k) (heap w))) (members o)) as [kids|] eqn:Ek;
      [|done].
    simpl in Ho. injection Ho as <-.
    destruct (mapM_deep (Member_copy_ctor_with (T_copy (S k))) (S k)) with
      (ms := members o) (w := w) (kids := kids) as (ms' & w' & E & D & F & A);
      [|done|done|done|].
    + intros m w0 t0 Hd0 Hok0 Hm0.
      destruct (Member_copy_ctor_with_deep (T_copy (S k)) k IH m w0 t0 Hd0 Hok0 Hm0)
        as (a & w1 & E1 & D1 & F1 & A1 & _).
      exists (mkData (Some a) (Some a)), w1. split; [done|]. split; [|done].
      unfold denote_member. simpl. exact D1.
    + exists (mkObj (plain o) ms'), w'. split; [|split; [|split]].
      * change (T_copy (S (S k)) o) with
          (ms <- mapM_kz (Member_copy_ctor_with (T_copy (S k))) (members o) ;;
           ret (mkObj (plain o) ms)).
        by rewrite (bind_Some _ _ _ _ _ E).
      * unfold denote_obj. cbn [members plain]. by rewrite D.
      * done.
      * done.
Qed.

(** **** C2 *)

(** C2: with transaction depth zero the copy constructor builds the copy
    in new blocks only: the handle is a fresh block with use count one
    that holds the same tree as the source, and every block and use count
    that existed before is as it was.  With a nonzero depth the copy has
    the handle of the source, whose use count grows by one; nothing is
    allocated, no block is written and the root object with its registry
    is unchanged. *)
Theorem Member_copy_ctor_deep_or_shallow (k : nat) (other : Data) (w : World) :
  (depth w = 0 → alloc_ok w →
   ∀ t, denote_member (denote (S k) (heap w)) other = Some t →
   ∃ a w', Member_copy_ctor (S k) other w = Some (mkData (Some a) (Some a), w')
           ∧ heap w !! a = None
           ∧ denote_from (next w) (S k) (heap w') a = Some t
           ∧ heap w ⊆ heap w' ∧ refs w ⊆ refs w'
           ∧ refs w' !! a = Some 1
           ∧ root w' = root w ∧ depth w' = depth w)
  ∧ (depth w ≠ 0 → live (refs w) other →
     ∃ w', Member_copy_ctor k other w = Some (other, w')
           ∧ heap w' = heap w ∧ next w' = next w
           ∧ root w' = root w ∧ depth w' = depth w
           ∧ ∀ a n, payload other = Some a → refs w !! a = Some n →
               refs w' !! a = Some (S n)).
Proof.
  split.
  - intros Hd Hok t Ht.
    destruct (Member_copy_ctor_with_deep (T_copy (S k)) k (T_copy_deep k)
                other w t Hd Hok Ht) as (a & w' & E & D & F & A & Hle & Hr).
    exists a, w'. destruct F as (Fd & Fr & Fh & Ff & Fn).
    repeat split; try done.
    destruct Hok as [Hh _].
    destruct (heap w !! a) as [o|] eqn:Eo; [|done].
    pose proof (map_Forall_lookup_1 _ _ _ _ Hh Eo) as Hlt. simpl in Hlt. lia.
  - intros Hd Hl.
    exists (with_refs (add_ref (payload other) (refs w)) w).
    repeat split.
    + unfold Member_copy_ctor, Member_copy_ctor_with, deep, bind at 1, gets.
      destruct (Nat.eqb_spec (depth w) 0) as [|_]; [done|].
      by rewrite (bind_Some _ _ _ _ _ (acquire_run w other Hl)).
    + intros a n Ha Hn. simpl. rewrite Ha. by apply add_ref_same.
Qed.

Lemma Member_copy_ctor_deep_or_shallow_witness :
  (∃ a w', Member_copy_ctor 2 (m_root (root idle_world)) idle_world
           = Some (mkData (Some a) (Some a), w')
         ∧ denote 2 (heap w') a = Some (TNode 0 [TNode 1 []; TNode 2 []]))
  ∧ (∃ w', Member_copy_ctor 1 (m_root (root tx_world)) tx_world
           = Some (m_root (root tx_world), w')
         ∧ next w' = next tx_world).
Proof.
  split.
  - destruct (Member_copy_ctor_deep_or_shallow 1 (m_root (root idle_world)) idle_world)
      as [Hdeep _].
    destruct (Hdeep eq_refl) with (t := TNode 0 [TNode 1 []; TNode 2 []])
      as (a & w' & E & _ & D & _).
    + by_computation.
    + vm_compute. reflexivity.
    + exists a, w'. split; [exact E|].
      eapply denote_from_mono; [reflexivity| |exact D]. lia.
  - destruct (Member_copy_ctor_deep_or_shallow 1 (m_root (root tx_world)) tx_world)
      as [_ Hshallow].
    destruct Hshallow as (w' & E & _ & Hn & _).
    + vm_compute. lia.
    + by_computation.
    + exists w'. split; [exact E | exact Hn].
Defined.

(** ** Assignment *)


Lemma detach_world_refs_old o m w old n :
  refs w !! next w = None → payload m = Some old →
  Some old ∉ payload <$> members o → refs w !! old = Some n →
  refs (detach_world o m w) !! old = Some (n - 1).
Proof.
  intros Hn Hp Hnin Ho. unfold detach_world. cbn [refs].
  assert (old ≠ next w) as Hne by congruence.
  rewrite add_ref_other; [|congruence].
  rewrite Hp. apply drop_ref_same.
  rewrite lookup_insert_ne; [|done]. by rewrite share_all_other.
Qed.

Lemma load_run a o w : heap w !! a = Some o → load a w = Some (o, w).
Proof. intros H. unfold load, bind, gets. by rewrite H. Qed.

Lemma store_run a o o0 w :
  heap w !! a = Some o0 → store a o w = Some (tt, set_heap (insert a o) w).
Proof.
  intros H. unfold store. by rewrite (bind_Some _ _ _ _ _ (load_run a o0 w H)).
Qed.


(** **** C3 *)




(** **** C10 *)




(** ** Transactions *)

Lemma beginTransaction_run f q o w :
  m_transactionMutex (root w) = false →
  qdata (m_root (root w)) = Some q → heap w !! q = Some o →
  Forall (live (refs w)) (members o) → live (refs w) (m_root (root w)) →
  beginTransaction (S f) w = Some (next w, begin_world o w).
Proof.
  intros Hlock Hq Ho Hms Hr. unfold beginTransaction.
  set (w0 := set_depth S (set_root (with_mutex true) w)).
  assert (impl_beginTransaction w = Some (tt, w0)) as E0.
  { unfold impl_beginTransaction, bind, gets. by rewrite Hlock. }
  rewrite (bind_Some _ _ _ _ _ E0).
  unfold bind at 1. unfold gets at 1. cbn [root w0 set_depth set_root with_mutex m_root].
  unfold bind at 1. rewrite Hq. unfold lift_opt at 1, ret at 1.
  rewrite (bind_Some _ _ _ _ _ (load_run q o w0 Ho)).
  rewrite (bind_Some _ _ _ _ _ (construct_copy_run f o w0 (Nat.neq_succ_0 _) Hms)).
  rewrite (bind_Some _ _ _ _ _ (detachWith_copy_run o (m_root (root w)) w0 Hr)).
  done.
Qed.

(** **** C4 *)

(** C4: [beginTransaction] on a root whose mutex is free takes the mutex,
    increments the transaction depth and, whatever the state of the root
    member, copies the root value into one fresh block; the new handle
    becomes the root member's and is appended to the registry, so that it
    is the first entry when the registry was empty.  The pointer returned
    is the new block, which is neither the old root block nor the
    committed one; the committed handle is not touched. *)
Theorem beginTransaction_detaches_root (f : nat) (q : addr) (o : Obj) (w : World) :
  m_transactionMutex (root w) = false →
  qdata (m_root (root w)) = Some q → heap w !! q = Some o →
  Forall (live (refs w)) (members o) → live (refs w) (m_root (root w)) →
  alloc_ok w →
  let a := next w in
  let m' := mkData (Some a) (Some a) in
  ∃ w', beginTransaction (S f) w = Some (a, w')
        ∧ m_transactionMutex (root w') = true
        ∧ depth w' = S (depth w)
        ∧ heap w !! a = None
        ∧ heap w' = <[a := o]> (heap w)
        ∧ next w' = Pos.succ a
        ∧ m_root (root w') = m'
        ∧ m_openEdits (root w') = m_openEdits (root w) ++ [m']
        ∧ (m_openEdits (root w) = [] → m_openEdits (root w') = [m'])
        ∧ m_detachedRoot (root w') = m_detachedRoot (root w)
        ∧ a ≠ q
        ∧ ∀ c, m_detachedRoot (root w) = Some c → is_Some (heap w !! c) → a ≠ c.
Proof.
  intros Hlock Hq Ho Hms Hr Hok a m'.
  destruct (alloc_ok_fresh w Hok) as [Hfh Hfr].
  exists (begin_world o w).
  split; [by apply (beginTransaction_run f q o w)|].
  repeat split; try done.
  - simpl. by intros ->.
  - intros Heq. unfold a in Heq. rewrite Heq in Hfh. congruence.
  - intros c _ [x Hx] Heq. unfold a in Heq. rewrite Heq in Hfh. congruence.
Qed.

Lemma beginTransaction_detaches_root_witness :
  ∃ w', beginTransaction 1 idle_world = Some (4%positive, w')
        ∧ m_openEdits (root w') = [mkData (Some 4%positive) (Some 4%positive)]
        ∧ m_detachedRoot (root w') = Some 3%positive.
Proof.
  destruct (beginTransaction_detaches_root 0 3%positive
              (mkObj 0 [mkData (Some 1%positive) (Some 1%positive);
                        mkData (Some 2%positive) (Some 2%positive)]) idle_world)
    as (w' & E & _ & _ & _ & _ & _ & _ & _ & Hreg & Hcom & _).
  - reflexivity.
  - reflexivity.
  - vm_compute. reflexivity.
  - by_computation.
  - by_computation.
  - by_computation.
  - exists w'. split; [exact E|]. split; [by apply Hreg|]. by rewrite Hcom.
Defined.

(** ** Construction *)

Lemma not_registered_fresh a l :
  Forall (λ e, payload e ≠ Some a) l →
  existsb (λ e, bool_decide (payload e = Some a)) l = false.
Proof.
  induction 1 as [|e l He _ IH]; [done|].
  simpl. rewrite IH. rewrite bool_decide_eq_false_2; done.
Qed.

(** **** C7 *)

(** C7, as the claim states it, fails inside a transaction: the member
    constructed there gets block 5, its first mutable [get] returns block
    6, and two blocks were allocated. *)
Lemma Member_ctor_get_in_transaction_copies :
  next tx_world = 5%positive
  ∧ ∃ w', (m <- Member_ctor (leaf 7) ;; r <- Member_get 1 m ;; ret (m, snd r)) tx_world
          = Some ((mkData (Some 5%positive) (Some 5%positive), 6%positive), w')
        ∧ next w' = 7%positive.
Proof.
  split; [reflexivity|].
  destruct ((m <- Member_ctor (leaf 7) ;; r <- Member_get 1 m ;; ret (m, snd r)) tx_world)
    as [[r w']|] eqn:E; [|vm_compute in E; discriminate].
  exists w'. vm_compute in E. injection E as <- <-. split; reflexivity.
Qed.

(** C7: constructing a member from constructor arguments allocates one
    fresh block with use count one that holds the constructed value.
    With transaction depth zero a mutable [get] of the new member returns
    that block and changes nothing.  With a nonzero depth the new handle
    is not in the registry: the first mutable [get] allocates a second
    block holding a copy of the value, registers it and returns it. *)
Theorem Member_ctor_then_get (f : nat) (ctor : kz Obj) (v : Obj) (w w1 : World) :
  ctor w = Some (v, w1) → alloc_ok w1 →
  let a := next w1 in
  let m := mkData (Some a) (Some a) in
  ∃ w2, Member_ctor ctor w = Some (m, w2)
        ∧ heap w1 !! a = None
        ∧ heap w2 = <[a := v]> (heap w1)
        ∧ refs w2 !! a = Some 1
        ∧ next w2 = Pos.succ a
        ∧ (depth w1 = 0 → Member_get f m w2 = Some ((m, a), w2))
        ∧ (depth w1 ≠ 0 →
           Forall (live (refs w1)) (m_openEdits (root w1)) →
           Forall (live (refs w1)) (members v) →
           let a' := Pos.succ a in
           let m' := mkData (Some a') (Some a') in
           ∃ w3, Member_get (S f) m w2 = Some ((m', a'), w3)
                 ∧ heap w3 = <[a' := v]> (heap w2)
                 ∧ next w3 = Pos.succ a'
                 ∧ registered m' w3 = true).
Proof.
  intros Hc Hok a m.
  destruct (alloc_ok_fresh w1 Hok) as [Hfh Hfr].
  pose (w2 := set_next Pos.succ
                (set_refs (insert a 1) (set_heap (insert a v) w1))).
  exists w2. split; [apply (Data_construct_run ctor v w w1 Hc)|].
  split; [done|]. split; [done|].
  split; [simpl; apply lookup_insert_eq|]. split; [done|]. split.
  - intros Hd. by apply Member_get_deep.
  - intros Hd Hreg Hms a' m'.
    exists (detach_world v m w2). split; [|split; [done|split; [done|]]].
    + apply (Member_get_shared f m a v).
      * done.
      * unfold registered. simpl. apply not_registered_fresh.
        eapply Forall_impl; [exact Hreg|].
        intros e He Hp. destruct (He _ Hp) as [n Hn]. unfold a in Hn. congruence.
      * done.
      * simpl. apply lookup_insert_eq.
      * simpl. eapply Forall_impl; [exact Hms|].
        intros d Hl b Hb. destruct (Hl b Hb) as [n Hn].
        destruct (decide (a = b)) as [<-|Hne].
        -- rewrite lookup_insert_eq. eauto.
        -- rewrite lookup_insert_ne; eauto.
      * intros b [= <-]. simpl. rewrite lookup_insert_eq. eauto.
    + apply (registered_app m').
Qed.

Lemma Member_ctor_then_get_witness :
  (∃ w2, Member_ctor (leaf 7) idle_world
          = Some (mkData (Some 4%positive) (Some 4%positive), w2)
        ∧ Member_get 1 (mkData (Some 4%positive) (Some 4%positive)) w2
          = Some ((mkData (Some 4%positive) (Some 4%positive), 4%positive), w2))
  ∧ (∃ w2 w3, Member_ctor (leaf 7) tx_world
          = Some (mkData (Some 5%positive) (Some 5%positive), w2)
        ∧ Member_get 1 (mkData (Some 5%positive) (Some 5%positive)) w2
          = Some ((mkData (Some 6%positive) (Some 6%positive), 6%positive), w3)).
Proof.
  split.
  - destruct (Member_ctor_then_get 1 (leaf 7) (mkObj 7 []) idle_world idle_world)
      as (w2 & E & _ & _ & _ & _ & Hdeep & _).
    + reflexivity.
    + by_computation.
    + exists w2. split; [exact E|]. apply Hdeep. reflexivity.
  - destruct (Member_ctor_then_get 0 (leaf 7) (mkObj 7 []) tx_world tx_world)
      as (w2 & E & _ & _ & _ & _ & _ & Hsh).
    + reflexivity.
    + by_computation.
    + destruct Hsh as (w3 & E3 & _).
      * vm_compute. lia.
      * by_computation.
      * by_computation.
      * exists w2, w3. split; [exact E | exact E3].
Defined.

Lemma RootObject_ctor_run obj w :
  live (refs w) obj →
  RootObject_ctor obj w
  = Some (tt, set_root (λ _, mkRootObject obj false [] (payload obj))
                (with_refs (add_ref (payload obj) (refs w)) w)).
Proof.
  intros Hl. unfold RootObject_ctor, impl_RootObject_ctor.
  assert (takeData null_data obj w = Some (obj, w)) as E by done.
  rewrite (bind_Some _ _ _ _ _ E).
  by rewrite (bind_Some _ _ _ _ _ (acquire_run w obj Hl)).
Qed.

Lemma detachedPayload_run w :
  live (refs w) (mkData None (m_detachedRoot (root w))) →
  detachedPayload w
  = Some (m_detachedRoot (root w),
          with_refs (add_ref (m_detachedRoot (root w)) (refs w)) w).
Proof.
  intros Hl. unfold detachedPayload, detachedRoot.
  unfold bind at 1. unfold gets at 1.
  by rewrite (bind_Some _ _ _ _ _ (acquire_run w _ Hl)).
Qed.

(** **** C8 *)

(** C8: a root constructed from a new object whose constructor built the
    value [v], read at once through [detachedPayload], yields the block
    that holds [v]; that block is also the root member's, and the tree it
    denotes is the tree of [v]. *)
Theorem RootObject_round_trip (ctor : kz Obj) (v : Obj) (w w1 : World) :
  ctor w = Some (v, w1) →
  ∃ a w', (obj <- NewObject_ctor ctor ;;
           RootObject_ctor obj ;;;
           detachedPayload) w = Some (Some a, w')
          ∧ heap w' !! a = Some v
          ∧ m_detachedRoot (root w') = Some a
          ∧ m_root (root w') = mkData (Some a) (Some a)
          ∧ m_openEdits (root w') = []
          ∧ next w' = Pos.succ (next w1)
          ∧ ∀ n t, alloc_ok w1 →
              denote_obj (denote n (heap w1)) v = Some t →
              denote (S n) (heap w') a = Some t.
Proof.
  intros Hc.
  exists (next w1). eexists. split; [|split; [|split; [|split; [|split; [|split]]]]].
  - unfold NewObject_ctor. rewrite bind_assoc.
    rewrite (bind_Some _ _ _ _ _ (Data_construct_run ctor v w w1 Hc)).
    unfold setData. unfold bind at 1. unfold ret at 1.
    set (w2 := set_next Pos.succ _).
    assert (live (refs w2) (mkData (Some (next w1)) (Some (next w1)))) as Hl.
    { intros b [= <-]. simpl. rewrite lookup_insert_eq. eauto. }
    rewrite (bind_Some _ _ _ _ _ (RootObject_ctor_run _ _ Hl)).
    rewrite detachedPayload_run; [reflexivity|].
    intros b [= <-]. simpl. rewrite lookup_insert_eq. simpl.
    rewrite lookup_insert_eq. eauto.
  - simpl. apply lookup_insert_eq.
  - done.
  - done.
  - done.
  - done.
  - intros n t Hok Ht. rewrite denote_S. simpl. rewrite lookup_insert_eq. simpl.
    destruct (alloc_ok_fresh w1 Hok) as [Hfh _].
    unfold denote_obj in *.
    destruct (mapM (denote_member (denote n (heap w1))) (members v)) as [kids|] eqn:Ek;
      [|done].
    simpl in Ht. injection Ht as <-.
    assert (mapM (denote_member (denote n (<[next w1 := v]> (heap w1)))) (members v)
            = Some kids) as ->; [|done].
    apply mapM_Some. apply mapM_Some in Ek. eapply Forall2_impl; [exact Ek|].
    intros x y. apply denote_member_mono; [by apply insert_subseteq|lia].
Qed.

Lemma RootObject_round_trip_witness :
  ∃ a w', (obj <- NewObject_ctor (pair_ctor 1 2) ;;
           RootObject_ctor obj ;;;
           detachedPayload) empty_world = Some (Some a, w')
          ∧ denote 2 (heap w') a = Some (TNode 0 [TNode 1 []; TNode 2 []]).
Proof.
  destruct (RootObject_round_trip (pair_ctor 1 2)
              (mkObj 0 [mkData (Some 1%positive) (Some 1%positive);
                        mkData (Some 2%positive) (Some 2%positive)])
              empty_world (run_from (pair_ctor 1 2) empty_world))
    as (a & w' & E & _ & _ & _ & _ & _ & Hden).
  - vm_compute. reflexivity.
  - exists a, w'. split; [exact E|]. apply Hden.
    + by_computation.
    + vm_compute. reflexivity.
Defined.

(** **** C9 *)

(** C9: starting from a root that is idle with an empty registry, or
    inside its one transaction, every program of client calls that runs
    to completion ends in such a state again; in particular the registry
    is empty whenever the mutex is free.  Every [endTransaction] that
    returns leaves the registry empty, and no call made while the root is
    idle, other than [beginTransaction], puts an entry in. *)
Theorem registry_empty_when_idle (fuel : nat) (ops : list Op) (w w' : World) :
  idle_inv w → run fuel ops w = Some (tt, w') →
  idle_inv w'
  ∧ (m_transactionMutex (root w') = false → m_openEdits (root w') = [])
  ∧ (∀ w1 w2, endTransaction w1 = Some (tt, w2) → m_openEdits (root w2) = [])
  ∧ (∀ op w2, op ≠ OBegin → m_transactionMutex (root w') = false →
       exec fuel op w' = Some (tt, w2) →
       m_transactionMutex (root w2) = false ∧ m_openEdits (root w2) = []).
Proof.
  assert (∀ op w1 w2, idle_inv w1 → exec fuel op w1 = Some (tt, w2) →
            idle_inv w2
            ∧ (op ≠ OBegin → m_transactionMutex (root w1) = false →
               m_transactionMutex (root w2) = false)) as Hstep.
  { intros op w1 w2 Hinv E.
    assert (keepsR w1 w2 → idle_inv w2
            ∧ (m_transactionMutex (root w1) = false →
               m_transactionMutex (root w2) = false)) as Hkeep.
    { intros (M & D & R). split; [|congruence].
      unfold idle_inv in *. rewrite M, D.
      destruct (m_transactionMutex (root w1)); [done|].
      destruct Hinv as [Hd Hr]. split; [done|]. rewrite R; done. }
    destruct (is_member_op op) eqn:Hop.
    { destruct Hkeep as [? ?]; [|done].
      exact (keepsR_exec_member fuel op Hop _ _ _ E). }
    destruct op; try done; simpl in E.
    - destruct (bind_inv _ _ _ _ E) as (p & w3 & E1 & E2). injection E2 as <-.
      destruct (beginTransaction_inv _ _ _ _ E1) as (M1 & M2 & D & _).
      split; [|done]. unfold idle_inv in *. rewrite M2. rewrite M1 in Hinv.
      destruct Hinv as [Hd _]. congruence.
    - destruct (endTransaction_inv _ _ E) as (M1 & M2 & D & R).
      split; [|congruence]. unfold idle_inv in *. rewrite M2. rewrite M1 in Hinv.
      split; [|done]. rewrite D, Hinv. done.
    - destruct (bind_inv _ _ _ _ E) as (p & w3 & E1 & E2). injection E2 as <-.
      destruct Hkeep as [? ?]; [|done].
      exact (keepsR_detachedPayload _ _ _ E1). }
  assert (∀ w1, idle_inv w1 → m_transactionMutex (root w1) = false →
            m_openEdits (root w1) = []) as Hidle.
  { intros w1 Hinv Hm. unfold idle_inv in Hinv. rewrite Hm in Hinv. apply Hinv. }
  intros Hinv Hrun.
  assert (idle_inv w') as Hinv'.
  { revert w Hinv Hrun. unfold run. induction ops as [|op ops IH]; intros w Hinv Hrun.
    - injection Hrun as <-. done.
    - simpl in Hrun. destruct (bind_inv _ _ _ _ Hrun) as ([] & w1 & E1 & E2).
      apply (IH w1); [|done]. by apply (Hstep op w w1). }
  split; [done|]. split; [by apply Hidle|]. split.
  - intros w1 w2 E. by destruct (endTransaction_inv _ _ E) as (_ & _ & _ & R).
  - intros op w2 Hne Hm E.
    destruct (Hstep op w' w2 Hinv' E) as [Hinv2 Hm2].
    split; [by apply Hm2|]. apply Hidle; [done|]. by apply Hm2.
Qed.

Lemma registry_empty_when_idle_witness :
  ∃ w', run 1 two_transactions idle_world = Some (tt, w')
        ∧ m_transactionMutex (root w') = false
        ∧ m_openEdits (root w') = [].
Proof.
  destruct (run 1 two_transactions idle_world) as [[[] w']|] eqn:E;
    [|vm_compute in E; discriminate].
  exists w'. split; [reflexivity|].
  assert (m_transactionMutex (root w') = false) as Hm.
  { vm_compute in E. by injection E as <-. }
  split; [exact Hm|].
  destruct (registry_empty_when_idle 1 two_transactions idle_world w') as (_ & Hreg & _).
  - vm_compute. split; reflexivity.
  - exact E.
  - by apply Hreg.
Defined.

(** ** A transaction that writes one member *)

Lemma live_sub r r' d : dom r ⊆ dom r' → live r d → live r' d.
Proof.
  intros Hsub Hl a Ha. apply elem_of_dom. apply Hsub. apply elem_of_dom. eauto.
Qed.




Lemma detach_world_dom o m w :
  dom (refs (detach_world o m w)) = {[next w]} ∪ dom (refs w).
Proof.
  unfold detach_world. cbn [refs].
  by rewrite add_ref_dom, drop_ref_dom, dom_insert_L, share_all_dom.
Qed.

Lemma live_detach_world o m w d :
  live (refs w) d → live (refs (detach_world o m w)) d.
Proof.
  apply live_sub. rewrite detach_world_dom. apply union_subseteq_r.
Qed.

Lemma live_new_detach_world o m w :
  live (refs (detach_world o m w)) (mkData (Some (next w)) (Some (next w))).
Proof.
  intros b [= <-]. apply elem_of_dom. rewrite detach_world_dom.
  apply elem_of_union_l, elem_of_singleton. done.
Qed.

Lemma set_member_run p i m o w :
  heap w !! p = Some o →
  set_member p i m w
  = Some (tt, set_heap (insert p (mkObj (plain o) (<[i := m]> (members o)))) w).
Proof.
  intros Ho. unfold set_member.
  rewrite (bind_Some _ _ _ _ _ (load_run p o w Ho)).
  by apply (store_run p _ o).
Qed.

Lemma write_plain_run p v o w :
  heap w !! p = Some o →
  write_plain p v w = Some (tt, set_heap (insert p (mkObj v (members o))) w).
Proof.
  intros Ho. unfold write_plain.
  rewrite (bind_Some _ _ _ _ _ (load_run p o w Ho)).
  by apply (store_run p _ o).
Qed.

(** **** C5 *)



(** ** Self-assignment *)

Lemma Obj_eta o : mkObj (plain o) (members o) = o.
Proof. by destruct o. Qed.

Lemma set_heap_id a o w : heap w !! a = Some o → set_heap (insert a o) w = w.
Proof.
  intros H. destruct w as [h r n d rt]. unfold set_heap. simpl in *.
  by rewrite insert_id.
Qed.

Lemma store_same a o w : heap w !! a = Some o → store a o w = Some (tt, w).
Proof.
  intros H. rewrite (store_run a o o w H). by rewrite set_heap_id.
Qed.

Lemma forM_fixed {A} (g : A → kz unit) (l : list A) w :
  (∀ x, x ∈ l → g x w = Some (tt, w)) → forM_kz g l w = Some (tt, w).
Proof.
  induction l as [|x l IH]; intros H; [done|].
  simpl. rewrite (bind_Some _ _ _ _ _ (H x (list_elem_of_here _ _))).
  apply IH. intros y Hy. apply H. by right.
Qed.

Lemma T_assign_self n q t w :
  depth w = 0 → denote n (heap w) q = Some t →
  T_assign n q (InBlock q) w = Some (tt, w).
Proof.
  intros Hd. revert q t. induction n as [|f IH]; intros q t Ht; [done|].
  rewrite denote_S in Ht.
  destruct (heap w !! q) as [o|] eqn:Ho; [|done]. simpl in Ht.
  unfold denote_obj in Ht.
  destruct (mapM (denote_member (denote f (heap w))) (members o)) as [kids|] eqn:Ek;
    [|done].
  apply mapM_Some in Ek.
  change (T_assign (S f) q (InBlock q))
    with (so <- read_src (InBlock q) ;;
          to <- load q ;;
          store q (mkObj (plain so) (members to)) ;;;
          forM_kz (λ i,
              so' <- read_src (InBlock q) ;;
              sm <- lift_opt (members so' !! i) ;;
              to' <- load q ;;
              tm <- lift_opt (members to' !! i) ;;
              sq <- Member_get_const sm ;;
              tm' <- Member_assign_with (T_assign f) (T_ctor (S f)) tm (InBlock sq) ;;
              set_member q i tm')
            (seq 0 (length (members to)))).
  pose proof (load_run q o w Ho) as El.
  assert (read_src (InBlock q) w = Some (o, w)) as Er by exact El.
  rewrite (bind_Some _ _ _ _ _ Er), (bind_Some _ _ _ _ _ El).
  rewrite Obj_eta.
  rewrite (bind_Some _ _ _ _ _ (store_same q o w Ho)).
  apply forM_fixed. intros i Hi.
  apply elem_of_seq in Hi as [_ Hi]. simpl in Hi.
  destruct (lookup_lt_is_Some_2 (members o) i Hi) as [m Hm].
  destruct (Forall2_lookup_l _ _ _ _ _ Ek Hm) as (tm & _ & Hden).
  unfold denote_member in Hden.
  destruct (qdata m) as [qi|] eqn:Hq; [|done]. simpl in Hden.
  rewrite (bind_Some _ _ _ _ _ Er). rewrite Hm.
  unfold lift_opt at 1. unfold bind at 1. unfold ret at 1.
  rewrite (bind_Some _ _ _ _ _ El). rewrite Hm.
  unfold lift_opt at 1. unfold bind at 1. unfold ret at 1.
  assert (Member_get_const m w = Some (qi, w)) as Eg
    by (unfold Member_get_const; by rewrite Hq).
  rewrite (bind_Some _ _ _ _ _ Eg).
  assert (Member_assign_with (T_assign f) (T_ctor (S f)) m (InBlock qi) w
          = Some (m, w)) as Ea.
  { unfold Member_assign_with.
    rewrite (bind_Some _ _ _ _ _ (detached_deep m w Hd)). cbv iota.
    assert (qget m w = Some (qi, w)) as Eqg by (unfold qget; by rewrite Hq).
    rewrite (bind_Some _ _ _ _ _ Eqg).
    by rewrite (bind_Some _ _ _ _ _ (IH qi tm Hden)). }
  rewrite (bind_Some _ _ _ _ _ Ea).
  rewrite (set_member_run q i m o w Ho).
  rewrite (list_insert_id _ _ _ Hm), Obj_eta. by rewrite set_heap_id.
Qed.

(** **** X1 *)

(** X1: outside transactions, assigning a member to itself leaves the
    whole world as it was, for a value that is a tree of any shape: the
    operator has no self-assignment test and needs none. *)
Theorem Member_copy_assign_self (n : nat) (m : Data) (q : addr) (t : Tree) (w : World) :
  depth w = 0 → qdata m = Some q → denote n (heap w) q = Some t →
  Member_copy_assign n m m w = Some (m, w).
Proof.
  intros Hd Hq Ht. unfold Member_copy_assign.
  rewrite (bind_Some _ _ _ _ _ (detached_deep m w Hd)). cbv iota.
  assert (qget m w = Some (q, w)) as E1 by (unfold qget; by rewrite Hq).
  assert (Member_get_const m w = Some (q, w)) as E2
    by (unfold Member_get_const; by rewrite Hq).
  rewrite (bind_Some _ _ _ _ _ E1), (bind_Some _ _ _ _ _ E2).
  by rewrite (bind_Some _ _ _ _ _ (T_assign_self n q t w Hd Ht)).
Qed.

Lemma Member_copy_assign_self_witness :
  Member_copy_assign 3 (m_root (root nested_idle_world))
    (m_root (root nested_idle_world)) nested_idle_world
  = Some (m_root (root nested_idle_world), nested_idle_world).
Proof.
  apply (Member_copy_assign_self 3 _ 5%positive
           (TNode 0 [TNode 0 [TNode 1 []]; TNode 0 [TNode 2 []]])).
  - reflexivity.
  - reflexivity.
  - vm_compute. reflexivity.
Defined.

(** ** Copies and the blocks they leave alone *)

Lemma denote_from_agree lo n h h' a t :
  (∀ b, (lo ≤ b)%positive → h' !! b = h !! b) →
  denote_from lo n h a = Some t → denote_from lo n h' a = Some t.
Proof.
  intros Hag. revert a t. induction n as [|n IH]; intros a t; [done|].
  simpl. destruct (Pos.leb_spec lo a) as [Hle|]; [|done].
  rewrite (Hag a Hle). destruct (h !! a) as [o|]; [|done]. simpl.
  unfold denote_obj.
  destruct (mapM (denote_member (denote_from lo n h)) (members o)) as [kids|] eqn:Ek;
    [|done].
  simpl. intros [= <-]. apply mapM_Some in Ek.
  assert (mapM (denote_member (denote_from lo n h')) (members o) = Some kids) as ->;
    [|done].
  apply mapM_Some. eapply Forall2_impl; [exact Ek|].
  intros m tm. unfold denote_member. destruct (qdata m) as [q|]; [|done].
  simpl. apply IH.
Qed.

Lemma denote_from_block lo n h a t :
  denote_from lo n h a = Some t → is_Some (h !! a).
Proof.
  destruct n as [|n]; [done|]. simpl.
  destruct (lo <=? a)%positive; [|done]. destruct (h !! a); eauto. done.
Qed.

Lemma alloc_ok_lt w a o : alloc_ok w → heap w !! a = Some o → (a < next w)%positive.
Proof. intros [Hh _] Ho. exact (map_Forall_lookup_1 _ _ _ _ Hh Ho). Qed.

(** **** X2 *)

(** X2: a member copied outside transactions and its source do not
    affect each other: after a write through the copy's mutable pointer
    the source still denotes its tree, and after a write into the
    source's block the copy still denotes the tree it was copied from. *)
Theorem deep_copy_isolated (k : nat) (other : Data) (q : addr) (t : Tree) (w : World) :
  depth w = 0 → alloc_ok w →
  qdata other = Some q → denote (S k) (heap w) q = Some t →
  ∃ a w', Member_copy_ctor (S k) other w = Some (mkData (Some a) (Some a), w')
          ∧ a ≠ q
          ∧ (∀ v, ∃ w2 o',
               (r <- Member_get (S k) (mkData (Some a) (Some a)) ;;
                write_plain (snd r) v) w' = Some (tt, w2)
               ∧ heap w2 !! a = Some (mkObj v (members o'))
               ∧ denote (S k) (heap w2) q = Some t)
          ∧ (∀ v, ∃ w3, write_plain q v w' = Some (tt, w3)
               ∧ denote (S k) (heap w3) a = Some t).
Proof.
  intros Hd Hok Hq Ht.
  assert (denote_member (denote (S k) (heap w)) other = Some t) as Hm.
  { unfold denote_member. by rewrite Hq. }
  destruct (Member_copy_ctor_with_deep (T_copy (S k)) k (T_copy_deep k)
              other w t Hd Hok Hm) as (a & w' & E & D & F & A & Hle & Hr).
  destruct F as (Fd & Fr & Fh & Ff & Fn).
  destruct (denote_from_block _ _ _ _ _ Ht) as [oq Hoq].
  pose proof (alloc_ok_lt w q oq Hok Hoq) as Hqlt.
  assert (heap w !! a = None) as Hfresh.
  { destruct (heap w !! a) as [x|] eqn:Ex; [|done].
    pose proof (alloc_ok_lt w a x Hok Ex). lia. }
  exists a, w'. split; [exact E|]. split; [congruence|]. split.
  - intros v. destruct (denote_from_block _ _ _ _ _ D) as [o' Ho'].
    exists (set_heap (insert a (mkObj v (members o'))) w'), o'.
    split; [|split].
    + assert (Member_get (S k) (mkData (Some a) (Some a)) w'
              = Some ((mkData (Some a) (Some a), a), w')) as Eg.
      { apply Member_get_deep; [congruence|done]. }
      rewrite (bind_Some _ _ _ _ _ Eg). by apply write_plain_run.
    + simpl. apply lookup_insert_eq.
    + eapply denote_from_mono; [|reflexivity|exact Ht].
      simpl. apply map_subseteq_spec. intros b ob Hb.
      rewrite lookup_insert_ne; [|congruence].
      eapply lookup_weaken; [exact Hb|exact Fh].
  - intros v.
    pose proof (lookup_weaken _ _ _ _ Hoq Fh) as Hoq'.
    exists (set_heap (insert q (mkObj v (members oq))) w').
    split; [by apply write_plain_run|].
    eapply (denote_from_mono 1%positive (next w)); [reflexivity|lia|].
    eapply denote_from_agree; [|exact D].
    intros b Hb. simpl. rewrite lookup_insert_ne; [done|]. lia.
Qed.

Lemma deep_copy_isolated_witness :
  ∃ a w' w2 w3,
    Member_copy_ctor 2 (m_root (root idle_world)) idle_world
    = Some (mkData (Some a) (Some a), w')
    ∧ (r <- Member_get 2 (mkData (Some a) (Some a)) ;; write_plain (snd r) 7) w'
      = Some (tt, w2)
    ∧ denote 2 (heap w2) 3%positive = Some (TNode 0 [TNode 1 []; TNode 2 []])
    ∧ write_plain 3%positive 7 w' = Some (tt, w3)
    ∧ denote 2 (heap w3) a = Some (TNode 0 [TNode 1 []; TNode 2 []]).
Proof.
  destruct (deep_copy_isolated 1 (m_root (root idle_world)) 3%positive
              (TNode 0 [TNode 1 []; TNode 2 []]) idle_world)
    as (a & w' & E & _ & Hcopy & Hsrc).
  - reflexivity.
  - by_computation.
  - reflexivity.
  - vm_compute. reflexivity.
  - destruct (Hcopy 7%Z) as (w2 & o' & E2 & _ & D2).
    destruct (Hsrc 7%Z) as (w3 & E3 & D3).
    exists a, w', w2, w3. done.
Defined.

(** **** X3 *)

(** X3: inside a transaction, a [payload()] taken from a shared member
    is a snapshot: after the member is detached by a mutable [get] and
    written through the pointer returned, the payload's block holds the old
    value and has the use count it had before, while the member's new
    block holds the written value. *)
Theorem payload_survives_detach (f : nat) (q : addr) (o : Obj) (n : nat) (v : Z)
    (w : World) :
  let m := mkData (Some q) (Some q) in
  depth w ≠ 0 → registered m w = false →
  heap w !! q = Some o → refs w !! q = Some n →
  Forall (live (refs w)) (members o) → Some q ∉ payload <$> members o →
  alloc_ok w →
  let a := next w in
  ∃ w', (s <- Member_payload m ;;
         r <- Member_get (S f) m ;;
         write_plain (snd r) v ;;;
         ret (s, r)) w = Some ((Some q, (mkData (Some a) (Some a), a)), w')
        ∧ a ≠ q
        ∧ heap w' !! q = Some o
        ∧ heap w' !! a = Some (mkObj v (members o))
        ∧ refs w' !! q = Some n
        ∧ next w' = Pos.succ a.
Proof.
  intros m Hd Hr Ho Hn Hms Hnin Hok a.
  destruct (alloc_ok_fresh w Hok) as [Hfh Hfr].
  assert (live (refs w) m) as Hm by (intros b [= <-]; eauto).
  assert (a ≠ q) as Haq by (intros Heq; unfold a in Heq; congruence).
  set (w1 := with_refs (add_ref (payload m) (refs w)) w).
  assert (Member_payload m w = Some (Some q, w1)) as E1.
  { unfold Member_payload. by rewrite (bind_Some _ _ _ _ _ (acquire_run w m Hm)). }
  assert (dom (refs w1) = dom (refs w)) as Hdom by exact (add_ref_dom _ _).
  assert (Member_get (S f) m w1
          = Some ((mkData (Some a) (Some a), a), detach_world o m w1)) as E2.
  { apply (Member_get_shared f m q o w1); try done.
    - eapply Forall_impl; [exact Hms|]. intros d. apply live_sub. by rewrite Hdom.
    - eapply live_sub; [|exact Hm]. by rewrite Hdom. }
  set (w2 := detach_world o m w1) in *.
  assert (heap w2 !! a = Some o) as Ha by (simpl; apply lookup_insert_eq).
  exists (set_heap (insert a (mkObj v (members o))) w2).
  split; [|split; [|split; [|split; [|split]]]].
  - rewrite (bind_Some _ _ _ _ _ E1), (bind_Some _ _ _ _ _ E2). cbn [snd].
    by rewrite (bind_Some _ _ _ _ _ (write_plain_run a v o w2 Ha)).
  - done.
  - simpl. rewrite !lookup_insert_ne; done.
  - simpl. apply lookup_insert_eq.
  - assert (refs w2 !! q = Some (S n - 1)) as Hq2.
    { apply (detach_world_refs_old o m w1 q (S n)); try done.
      - simpl. rewrite Hn. rewrite lookup_insert_ne; [done|congruence].
      - simpl. rewrite Hn. apply lookup_insert_eq. }
    cbn [refs set_heap]. rewrite Hq2. f_equal. lia.
  - done.
Qed.

Lemma payload_survives_detach_witness :
  ∃ w', (s <- Member_payload (mkData (Some 1%positive) (Some 1%positive)) ;;
         r <- Member_get 1 (mkData (Some 1%positive) (Some 1%positive)) ;;
         write_plain (snd r) 5 ;;;
         ret (s, r)) tx_world
        = Some ((Some 1%positive,
                 (mkData (Some 5%positive) (Some 5%positive), 5%positive)), w')
        ∧ heap w' !! 1%positive = Some (mkObj 1 [])
        ∧ heap w' !! 5%positive = Some (mkObj 5 [])
        ∧ refs w' !! 1%positive = Some 2.
Proof.
  destruct (payload_survives_detach 0 1%positive (mkObj 1 []) 2 5 tx_world)
    as (w' & E & _ & H1 & H5 & Hr & _).
  - vm_compute. lia.
  - vm_compute. reflexivity.
  - vm_compute. reflexivity.
  - vm_compute. reflexivity.
  - by_computation.
  - simpl. apply not_elem_of_nil.
  - by_computation.
  - exists w'. done.
Defined.

(** ** Whole transactions *)


(** **** X4 *)



(** ** What the primitive steps respect *)

Lemma acquire_inv_refs a w w' :
  acquire (Some a) w = Some (tt, w') →
  ∃ n, refs w !! a = Some n ∧ w' = set_refs (insert a (S n)) w.
Proof.
  simpl. unfold bind, gets, lift_opt, modify, ret.
  destruct (refs w !! a) as [n|]; [|done]. intros [= <-]. eauto.
Qed.

Lemma release_inv_refs a w w' :
  release (Some a) w = Some (tt, w') →
  ∃ n, refs w !! a = Some n ∧ w' = set_refs (insert a (n - 1)) w.
Proof.
  simpl. unfold bind, gets, lift_opt, modify, ret.
  destruct (refs w !! a) as [n|]; [|done]. intros [= <-]. eauto.
Qed.

Section Primitives.
Context (R : relation World) `{!PreOrder R}.

(** Changing the use count of a block that has one. *)
Hypothesis R_refs :
  ∀ a n n0 w, refs w !! a = Some n0 → R w (set_refs (insert a n) w).

(** Allocating a block. *)
Hypothesis R_alloc :
  ∀ o w, R w (set_next Pos.succ
                (set_refs (insert (next w) 1) (set_heap (insert (next w) o) w))).

(** Appending a handle to the registry. *)
Hypothesis R_register :
  ∀ d w, R w (set_root (λ r, with_openEdits (m_openEdits r ++ [d]) r) w).

Lemma prim_acquire p : respects R (acquire p).
Proof.
  destruct p as [a|].
  - intros w [] w' E. destruct (acquire_inv_refs _ _ _ E) as (n & Hn & ->).
    by apply (R_refs a _ n).
  - by apply respects_ret.
Qed.

Lemma prim_release p : respects R (release p).
Proof.
  destruct p as [a|].
  - intros w [] w' E. destruct (release_inv_refs _ _ _ E) as (n & Hn & ->).
    by apply (R_refs a _ n).
  - by apply respects_ret.
Qed.

Lemma prim_make_shared o : respects R (make_shared o).
Proof. intros w a w' E. rewrite make_shared_run in E. injection E as _ <-. apply R_alloc. Qed.

Lemma prim_Data_construct ctor :
  respects R ctor → respects R (Data_construct ctor).
Proof.
  intros Hc. apply respects_bind; [done|done|]. intros o.
  apply respects_bind; [done|apply prim_make_shared|]. intros a.
  by apply respects_ret.
Qed.

Lemma prim_openEdit d : respects R (openEdit d).
Proof.
  apply respects_bind; [done|apply prim_acquire|]. intros _.
  intros w [] w' [= <-]. apply R_register.
Qed.

Lemma prim_detachWith m d : respects R (detachWith m d).
Proof.
  apply respects_bind; [done|apply prim_release|]. intros _.
  apply respects_bind; [done|apply prim_openEdit|]. intros _.
  by apply respects_ret.
Qed.

Lemma prim_Member_copy_ctor_with Tc other :
  (∀ o, respects R (Tc o)) → respects R (Member_copy_ctor_with Tc other).
Proof.
  intros HTc. apply respects_bind; [done|by apply respects_gets|].
  intros d. destruct d.
  - apply respects_bind; [done|by apply respects_lift_opt|]. intros q.
    apply respects_bind; [done|by apply respects_load|]. intros o.
    by apply prim_Data_construct.
  - apply respects_bind; [done|apply prim_acquire|]. intros _.
    by apply respects_ret.
Qed.

Lemma prim_T_copy fuel o : respects R (T_copy fuel o).
Proof.
  revert o. induction fuel as [|f IH]; intros o; simpl.
  - by apply respects_fail.
  - apply respects_bind; [done| |].
    + apply respects_mapM; [done|]. intros m.
      by apply prim_Member_copy_ctor_with.
    + intros ms. by apply respects_ret.
Qed.

Lemma prim_detach_copy fuel o m :
  respects R (new <- Data_construct (T_copy fuel o) ;; detachWith m new).
Proof.
  apply respects_bind; [done| |].
  - apply prim_Data_construct, prim_T_copy.
  - intros new. apply prim_detachWith.
Qed.

Lemma prim_detachedPayload : respects R detachedPayload.
Proof.
  apply respects_bind; [done|by apply respects_gets|]. intros p.
  apply respects_bind; [done|apply prim_acquire|]. intros _.
  by apply respects_ret.
Qed.

(** Writing a block that exists. *)
Hypothesis R_store :
  ∀ a o o0 w, heap w !! a = Some o0 → R w (set_heap (insert a o) w).

(** Every call except [beginTransaction] and [endTransaction]. *)
Lemma prim_exec fuel op : op ≠ OBegin → op ≠ OEnd → respects R (exec fuel op).
Proof.
  intros Hb He. destruct (is_member_op op) eqn:Hop.
  - apply respects_exec_member; [done|done| |done].
    intros f o m w r w' _ E. exact (prim_detach_copy f o m w r w' E).
  - destruct op; try done. simpl.
    apply respects_bind; [done|apply prim_detachedPayload|].
    intros _. by apply respects_ret.
Qed.

Lemma prim_run fuel ops :
  Forall (λ op, op ≠ OBegin ∧ op ≠ OEnd) ops → respects R (run fuel ops).
Proof.
  unfold run. induction 1 as [|op ops [Hb He] _ IH]; simpl.
  - by apply respects_ret.
  - apply respects_bind; [done|by apply prim_exec|]. intros _. exact IH.
Qed.
End Primitives.

#[global] Instance rootR_preorder : PreOrder rootR.
Proof.
  split.
  - intros w. unfold rootR. done.
  - intros w1 w2 w3 (M1 & C1 & D1) (M2 & C2 & D2). unfold rootR.
    split; [congruence|]. split; [congruence|]. by transitivity (dom (refs w2)).
Qed.

Lemma rootR_refs a n n0 w :
  refs w !! a = Some n0 → rootR w (set_refs (insert a n) w).
Proof.
  intros _. unfold rootR. simpl. split; [done|]. split; [done|].
  rewrite dom_insert_L. apply union_subseteq_r.
Qed.

Lemma rootR_alloc o w :
  rootR w (set_next Pos.succ
             (set_refs (insert (next w) 1) (set_heap (insert (next w) o) w))).
Proof.
  unfold rootR. simpl. split; [done|]. split; [done|].
  rewrite dom_insert_L. apply union_subseteq_r.
Qed.

Lemma rootR_register d w :
  rootR w (set_root (λ r, with_openEdits (m_openEdits r ++ [d]) r) w).
Proof. unfold rootR. done. Qed.

Lemma rootR_store a o o0 w :
  heap w !! a = Some o0 → rootR w (set_heap (insert a o) w).
Proof. intros _. unfold rootR. done. Qed.

Ltac rootR_side :=
  first [exact rootR_refs | exact rootR_alloc | exact rootR_register
        | exact rootR_store | apply _].

Lemma rootR_T_copy fuel o : respects rootR (T_copy fuel o).
Proof. apply prim_T_copy; rootR_side. Qed.

Lemma rootR_Data_construct ctor :
  respects rootR ctor → respects rootR (Data_construct ctor).
Proof. intros H. apply prim_Data_construct; [rootR_side..|exact H]. Qed.

Lemma rootR_detachWith m d : respects rootR (detachWith m d).
Proof. apply prim_detachWith; rootR_side. Qed.

Lemma rootR_acquire p : respects rootR (acquire p).
Proof. apply prim_acquire; rootR_side. Qed.

Lemma rootR_release p : respects rootR (release p).
Proof. apply prim_release; rootR_side. Qed.

Lemma rootR_run fuel ops :
  Forall (λ op, op ≠ OBegin ∧ op ≠ OEnd) ops → respects rootR (run fuel ops).
Proof. intros H. apply prim_run; [rootR_side..|exact H]. Qed.

Lemma Data_construct_inv ctor w d w' :
  Data_construct ctor w = Some (d, w') →
  ∃ a, d = mkData (Some a) (Some a) ∧ refs w' !! a = Some 1.
Proof.
  unfold Data_construct. intros E.
  destruct (bind_inv _ _ _ _ E) as (o & w1 & _ & E1).
  rewrite (bind_Some _ _ _ _ _ (make_shared_run o w1)) in E1.
  injection E1 as <- <-. exists (next w1). split; [done|].
  simpl. apply lookup_insert_eq.
Qed.

Lemma detachWith_inv m d w r w' : detachWith m d w = Some (r, w') → r = d.
Proof.
  unfold detachWith. intros E.
  destruct (bind_inv _ _ _ _ E) as ([] & w1 & _ & E1).
  destruct (bind_inv _ _ _ _ E1) as ([] & w2 & _ & E2).
  by injection E2 as <- _.
Qed.

(** [beginTransaction] returns the block of the new root member and
    leaves the committed handle alone. *)
Lemma beginTransaction_new_root fuel w p w' :
  beginTransaction fuel w = Some (p, w') →
  m_root (root w') = mkData (Some p) (Some p)
  ∧ m_detachedRoot (root w') = m_detachedRoot (root w)
  ∧ is_Some (refs w' !! p).
Proof.
  unfold beginTransaction. intros E.
  destruct (bind_inv _ _ _ _ E) as ([] & w0 & E0 & E1).
  unfold impl_beginTransaction, bind, gets in E0.
  destruct (m_transactionMutex (root w)); [discriminate E0|].
  injection E0 as <-.
  destruct (bind_inv _ _ _ _ E1) as (r & w1 & E2 & E3). injection E2 as <- <-.
  destruct (bind_inv _ _ _ _ E3) as (q & w1 & E4 & E5).
  destruct (qdata _) as [q0|]; [|discriminate E4]. injection E4 as <- <-.
  destruct (bind_inv _ _ _ _ E5) as (o & w1 & E6 & E7).
  destruct (load_inv _ _ _ _ E6) as [-> _].
  destruct (bind_inv _ _ _ _ E7) as (new & w2 & E8 & E9).
  destruct (Data_construct_inv _ _ _ _ E8) as (a & -> & Ha).
  destruct (bind_inv _ _ _ _ E9) as (r' & w3 & E10 & E11).
  pose proof (detachWith_inv _ _ _ _ _ E10) as ->.
  destruct (bind_inv _ _ _ _ E11) as ([] & w4 & E12 & E13).
  injection E12 as <-. injection E13 as <- <-.
  assert (rootR (set_depth S (set_root (with_mutex true) w)) w2) as (_ & C2 & _).
  { exact (rootR_Data_construct _ (rootR_T_copy fuel o) _ _ _ E8). }
  assert (rootR w2 w3) as (_ & C3 & D3).
  { exact (rootR_detachWith _ _ _ _ _ E10). }
  simpl. split; [done|]. split.
  - rewrite C3, C2. done.
  - apply elem_of_dom. apply D3. apply elem_of_dom. eauto.
Qed.

(** [endTransaction] publishes the handle of the root member. *)
Lemma endTransaction_publishes w w' :
  endTransaction w = Some (tt, w') →
  m_detachedRoot (root w') = payload (m_root (root w))
  ∧ m_root (root w') = m_root (root w)
  ∧ live (refs w') (m_root (root w)).
Proof.
  unfold endTransaction, impl_endTransaction. intros E.
  destruct (bind_inv _ _ _ _ E) as (l & w0 & E0 & E1).
  injection E0 as <- <-.
  destruct (m_transactionMutex (root w)) eqn:Hl; [|discriminate E1].
  simpl in E1.
  destruct (bind_inv _ _ _ _ E1) as (r & w1 & E2 & E3). injection E2 as <- <-.
  destruct (bind_inv _ _ _ _ E3) as ([] & w2 & E4 & E5).
  destruct (bind_inv _ _ _ _ E5) as ([] & w3 & E6 & E7).
  destruct (bind_inv _ _ _ _ E7) as ([] & w4 & E8 & E9). injection E8 as <-.
  destruct (bind_inv _ _ _ _ E9) as ([] & w5 & E10 & E11).
  destruct (bind_inv _ _ _ _ E11) as ([] & w6 & E12 & E13). injection E12 as <-.
  injection E13 as <-.
  pose proof (rootR_acquire _ _ _ _ E4) as (M2 & _ & _).
  pose proof (rootR_release _ _ _ _ E6) as (M3 & _ & D3).
  assert (respects rootR
            (forM_kz (λ e, release (payload e)) (m_openEdits (root w)))) as Hk.
  { apply respects_forM; [apply _|]. intros e. apply rootR_release. }
  destruct (Hk _ _ _ E10) as (M5 & C5 & D5). simpl in M5, C5, D5.
  simpl. split; [by rewrite C5|]. split; [by rewrite M5, M3, M2|].
  intros b Hb. apply elem_of_dom. apply D5, D3.
  rewrite Hb in E4. destruct (acquire_inv_refs _ _ _ E4) as (n & Hn & ->).
  simpl. rewrite dom_insert_L. apply elem_of_union_l, elem_of_singleton. done.
Qed.

(** **** X5 *)

(** X5: between [beginTransaction] and [endTransaction] no call on a
    member and no snapshot changes the committed handle: a snapshot taken
    there is the one from before the transaction.  The [endTransaction]
    that follows publishes exactly the block whose pointer
    [beginTransaction] returned, and a snapshot taken afterwards is that
    block. *)
Theorem transaction_publishes_begin_pointer (fuel : nat) (ops : list Op) (p : addr)
    (w w1 w2 : World) :
  beginTransaction fuel w = Some (p, w1) →
  Forall (λ op, op ≠ OBegin ∧ op ≠ OEnd) ops →
  run fuel ops w1 = Some (tt, w2) →
  m_detachedRoot (root w2) = m_detachedRoot (root w)
  ∧ m_root (root w2) = mkData (Some p) (Some p)
  ∧ (∀ s w', detachedPayload w2 = Some (s, w') → s = m_detachedRoot (root w))
  ∧ ∀ w3, endTransaction w2 = Some (tt, w3) →
      m_detachedRoot (root w3) = Some p
      ∧ ∃ w4, detachedPayload w3 = Some (Some p, w4).
Proof.
  intros Eb Hops Er.
  destruct (beginTransaction_new_root _ _ _ _ Eb) as (Hr1 & Hc1 & _).
  destruct (rootR_run fuel ops Hops _ _ _ Er) as (Hr2 & Hc2 & _).
  split; [congruence|]. split; [congruence|]. split.
  - intros s w' E. unfold detachedPayload, detachedRoot in E.
    destruct (bind_inv _ _ _ _ E) as (s0 & w0 & E0 & E1). injection E0 as <- <-.
    destruct (bind_inv _ _ _ _ E1) as ([] & w0 & _ & E2). injection E2 as <- _.
    congruence.
  - intros w3 Ee.
    destruct (endTransaction_publishes _ _ Ee) as (Hc3 & _ & Hl3).
    rewrite Hr2, Hr1 in Hc3, Hl3. simpl in Hc3.
    split; [done|]. eexists.
    rewrite detachedPayload_run; rewrite Hc3; [done|].
    intros b [= <-]. by apply Hl3.
Qed.

Lemma transaction_publishes_begin_pointer_witness :
  ∃ w1 w2 w3 w4,
    beginTransaction 1 idle_world = Some (4%positive, w1)
    ∧ run 1 [OGet 4 0; OWrite 5 5; OSnapshot; OValueAssign 4 1 (mkObj 7 [])] w1
      = Some (tt, w2)
    ∧ m_detachedRoot (root w2) = Some 3%positive
    ∧ endTransaction w2 = Some (tt, w3)
    ∧ detachedPayload w3 = Some (Some 4%positive, w4).
Proof.
  destruct (beginTransaction 1 idle_world) as [[p w1]|] eqn:Eb;
    [|vm_compute in Eb; discriminate].
  assert (p = 4%positive) as -> by (vm_compute in Eb; by injection Eb as <- _).
  destruct (run 1 [OGet 4 0; OWrite 5 5; OSnapshot; OValueAssign 4 1 (mkObj 7 [])] w1)
    as [[[] w2]|] eqn:Er;
    [|vm_compute in Eb; injection Eb as <-; vm_compute in Er; discriminate].
  destruct (endTransaction w2) as [[[] w3]|] eqn:Ee;
    [|vm_compute in Eb; injection Eb as <-; vm_compute in Er; injection Er as <-;
      vm_compute in Ee; discriminate].
  assert (Forall (λ op, op ≠ OBegin ∧ op ≠ OEnd)
            [OGet 4 0; OWrite 5 5; OSnapshot; OValueAssign 4 1 (mkObj 7 [])]) as Hops
    by (repeat constructor; discriminate).
  destruct (transaction_publishes_begin_pointer 1 _ 4%positive idle_world w1 w2
              Eb Hops Er) as (Hc & _ & _ & Hend).
  destruct (Hend w3 Ee) as (_ & w4 & E4).
  exists w1, w2, w3, w4. done.
Defined.

(** ** New objects *)

(** **** X6 *)

(** X6: a new object is one block from construction to publication: a
    [payload()] taken from it, a later write through [w()] and the first
    snapshot of the root constructed from it all concern the block its
    constructor allocated, so the write shows through the earlier payload
    and in the snapshot, and nothing further is allocated. *)
Theorem NewObject_write_then_root (ctor : kz Obj) (v0 : Obj) (v : Z) (w w1 : World) :
  ctor w = Some (v0, w1) →
  let a := next w1 in
  ∃ w', (obj <- NewObject_ctor ctor ;;
         s <- NewObject_payload obj ;;
         NewObject_w obj (λ p, write_plain p v) ;;;
         g <- NewObject_get obj ;;
         RootObject_ctor obj ;;;
         r <- detachedPayload ;;
         ret (s, g, r)) w = Some ((Some a, a, Some a), w')
        ∧ heap w' !! a = Some (mkObj v (members v0))
        ∧ heap w' = <[a := mkObj v (members v0)]> (heap w1)
        ∧ next w' = Pos.succ a
        ∧ m_root (root w') = mkData (Some a) (Some a)
        ∧ refs w' !! a = Some 4.
Proof.
  intros Hc a.
  set (obj := mkData (Some a) (Some a)).
  set (w2 := set_next Pos.succ
               (set_refs (insert a 1) (set_heap (insert a v0) w1))).
  assert (NewObject_ctor ctor w = Some (obj, w2)) as E1.
  { unfold NewObject_ctor.
    by rewrite (bind_Some _ _ _ _ _ (Data_construct_run ctor v0 w w1 Hc)). }
  assert (live (refs w2) obj) as Hl2.
  { intros b [= <-]. simpl. rewrite lookup_insert_eq. eauto. }
  set (w3 := with_refs (add_ref (payload obj) (refs w2)) w2).
  assert (NewObject_payload obj w2 = Some (Some a, w3)) as E2.
  { unfold NewObject_payload. by rewrite (bind_Some _ _ _ _ _ (acquire_run w2 obj Hl2)). }
  assert (heap w3 !! a = Some v0) as Ha3 by (simpl; apply lookup_insert_eq).
  set (w4 := set_heap (insert a (mkObj v (members v0))) w3).
  assert (NewObject_w obj (λ p, write_plain p v) w3 = Some (tt, w4)) as E3.
  { unfold NewObject_w, openDataEdit, closeDataEdit.
    unfold bind at 1. unfold ret at 1. cbn [qdata obj lift_opt].
    unfold bind at 1. unfold ret at 1.
    by rewrite (bind_Some _ _ _ _ _ (write_plain_run a v v0 w3 Ha3)). }
  assert (refs w4 !! a = Some 2) as Hr4.
  { unfold w4, w3. cbn [refs set_heap with_refs]. apply add_ref_same.
    simpl. apply lookup_insert_eq. }
  assert (live (refs w4) obj) as Hl4 by (intros b [= <-]; eauto).
  set (w5 := set_root (λ _, mkRootObject obj false [] (payload obj))
               (with_refs (add_ref (payload obj) (refs w4)) w4)).
  pose proof (RootObject_ctor_run obj w4 Hl4) as E5. fold w5 in E5.
  assert (refs w5 !! a = Some 3) as Hr5.
  { unfold w5. cbn [refs set_root with_refs]. by apply add_ref_same. }
  assert (detachedPayload w5
          = Some (Some a, with_refs (add_ref (Some a) (refs w5)) w5)) as E6.
  { rewrite detachedPayload_run; [done|]. intros b [= <-]. eauto. }
  eexists. split.
  { rewrite (bind_Some _ _ _ _ _ E1), (bind_Some _ _ _ _ _ E2).
    rewrite (bind_Some _ _ _ _ _ E3).
    unfold NewObject_get. cbn [qdata obj lift_opt].
    unfold bind at 1. unfold ret at 1.
    rewrite (bind_Some _ _ _ _ _ E5), (bind_Some _ _ _ _ _ E6). done. }
  split; [simpl; apply lookup_insert_eq|].
  split; [simpl; by rewrite insert_insert_eq|].
  split; [done|]. split; [done|].
  cbn [refs with_refs]. by apply add_ref_same.
Qed.

Lemma NewObject_write_then_root_witness :
  ∃ w', (obj <- NewObject_ctor (pair_ctor 1 2) ;;
         s <- NewObject_payload obj ;;
         NewObject_w obj (λ p, write_plain p 9) ;;;
         g <- NewObject_get obj ;;
         RootObject_ctor obj ;;;
         r <- detachedPayload ;;
         ret (s, g, r)) empty_world
        = Some ((Some 3%positive, 3%positive, Some 3%positive), w')
        ∧ denote 2 (heap w') 3%positive = Some (TNode 9 [TNode 1 []; TNode 2 []]).
Proof.
  destruct (NewObject_write_then_root (pair_ctor 1 2)
              (mkObj 0 [mkData (Some 1%positive) (Some 1%positive);
                        mkData (Some 2%positive) (Some 2%positive)]) 9
              empty_world (run_from (pair_ctor 1 2) empty_world))
    as (w' & E & _ & Hh & _).
  - vm_compute. reflexivity.
  - exists w'. split; [exact E|]. rewrite Hh. vm_compute. reflexivity.
Defined.

(** ** Well-formed worlds are kept *)

Lemma hoare_ret {A} (x : A) (Q : A → Prop) : Q x → hoare (ret x) Q.
Proof. intros HQ w r w' Hok [= <- <-]. done. Qed.

Lemma hoare_fail {A} (Q : A → Prop) : hoare fail Q.
Proof. intros w r w' _ E. discriminate E. Qed.

Lemma hoare_weaken {A} (m : kz A) (Q Q' : A → Prop) :
  hoare m Q → (∀ x, Q x → Q' x) → hoare m Q'.
Proof. intros H HQ w r w' Hok E. destruct (H _ _ _ Hok E). auto. Qed.

Lemma hoare_bind {A B} (m : kz A) (k : A → kz B) (Q1 : A → Prop) (Q2 : B → Prop) :
  hoare m Q1 → (∀ x, Q1 x → hoare (k x) Q2) → hoare (bind m k) Q2.
Proof.
  intros Hm Hk w r w' Hok E.
  destruct (bind_inv _ _ _ _ E) as (x & w1 & E1 & E2).
  destruct (Hm _ _ _ Hok E1) as [Hok1 HQ1].
  exact (Hk x HQ1 _ _ _ Hok1 E2).
Qed.

Lemma hoare_lift_opt {A} (o : option A) (Q : A → Prop) :
  (∀ x, o = Some x → Q x) → hoare (lift_opt o) Q.
Proof.
  intros HQ. destruct o as [x|]; [|apply hoare_fail].
  apply hoare_ret. by apply HQ.
Qed.

Lemma hoare_gets {A} (f : World → A) (Q : A → Prop) :
  (∀ w, world_ok w → Q (f w)) → hoare (gets f) Q.
Proof. intros HQ w r w' Hok [= <- <-]. auto. Qed.

Lemma hoare_mapM {A B} (g : A → kz B) (P : A → Prop) (Q : B → Prop) (l : list A) :
  (∀ x, P x → hoare (g x) Q) → Forall P l → hoare (mapM_kz g l) (Forall Q).
Proof.
  intros Hg. induction 1 as [|x l Hx _ IH]; simpl.
  - by apply hoare_ret.
  - eapply hoare_bind; [by apply Hg|]. intros y Hy.
    eapply hoare_bind; [exact IH|]. intros ys Hys.
    apply hoare_ret. by constructor.
Qed.

Lemma hoare_forM {A} (g : A → kz unit) (l : list A) :
  (∀ x, hoare (g x) (λ _, True)) → hoare (forM_kz g l) (λ _, True).
Proof.
  intros Hg. induction l as [|x l IH]; simpl.
  - by apply hoare_ret.
  - eapply hoare_bind; [apply Hg|]. intros _ _. exact IH.
Qed.

Lemma hoare_load a : hoare (load a) obj_ok.
Proof.
  intros w o w' Hok E. destruct (load_inv _ _ _ _ E) as [-> Ho].
  split; [done|]. destruct Hok as (Hh & _).
  exact (map_Forall_lookup_1 _ _ _ _ Hh Ho).
Qed.

Lemma world_ok_store a o o0 w :
  world_ok w → heap w !! a = Some o0 → obj_ok o →
  world_ok (set_heap (insert a o) w).
Proof.
  intros (Hh & Hr & Ah & Ar) Ho Hoo. split; [|split; [done|split; [|done]]].
  - simpl. by apply map_Forall_insert_2.
  - simpl. apply map_Forall_insert_2; [|done].
    exact (map_Forall_lookup_1 _ _ _ _ Ah Ho).
Qed.

Lemma world_ok_refs a n n0 w :
  world_ok w → refs w !! a = Some n0 → world_ok (set_refs (insert a n) w).
Proof.
  intros (Hh & Hr & Ah & Ar) Hn. split; [done|]. split; [done|].
  split; [done|]. simpl. apply map_Forall_insert_2; [|done].
  exact (map_Forall_lookup_1 _ _ _ _ Ar Hn).
Qed.

Lemma world_ok_alloc o w :
  world_ok w → obj_ok o →
  world_ok (set_next Pos.succ
              (set_refs (insert (next w) 1) (set_heap (insert (next w) o) w))).
Proof.
  intros (Hh & Hr & Ah & Ar) Ho. split; [|split; [done|split]]; simpl.
  - by apply map_Forall_insert_2.
  - apply map_Forall_insert_2; [lia|].
    eapply map_Forall_impl; [exact Ah|]. simpl. intros; lia.
  - apply map_Forall_insert_2; [lia|].
    eapply map_Forall_impl; [exact Ar|]. simpl. intros; lia.
Qed.

Lemma hoare_store a o : obj_ok o → hoare (store a o) (λ _, True).
Proof.
  intros Ho w r w' Hok E. unfold store in E.
  destruct (bind_inv _ _ _ _ E) as (o0 & w1 & E1 & E2).
  destruct (load_inv _ _ _ _ E1) as [-> Ho0].
  unfold modify in E2. injection E2 as _ <-.
  split; [|done]. by apply (world_ok_store a o o0).
Qed.

Lemma hoare_acquire p : hoare (acquire p) (λ _, True).
Proof.
  destruct p as [a|]; [|by apply hoare_ret].
  intros w [] w' Hok E. destruct (acquire_inv_refs _ _ _ E) as (n & Hn & ->).
  split; [|done]. by apply (world_ok_refs a _ n).
Qed.

Lemma hoare_release p : hoare (release p) (λ _, True).
Proof.
  destruct p as [a|]; [|by apply hoare_ret].
  intros w [] w' Hok E. destruct (release_inv_refs _ _ _ E) as (n & Hn & ->).
  split; [|done]. by apply (world_ok_refs a _ n).
Qed.

Lemma hoare_make_shared o : obj_ok o → hoare (make_shared o) (λ _, True).
Proof.
  intros Ho w a w' Hok E. rewrite make_shared_run in E. injection E as _ <-.
  split; [|done]. by apply world_ok_alloc.
Qed.

Lemma hoare_Data_construct ctor :
  hoare ctor obj_ok → hoare (Data_construct ctor) consistent.
Proof.
  intros Hc. eapply hoare_bind; [exact Hc|]. intros o Ho.
  eapply hoare_bind; [by apply hoare_make_shared|]. intros a _.
  apply hoare_ret. split; [done|]. simpl. eauto.
Qed.

Lemma hoare_openEdit d : consistent d → hoare (openEdit d) (λ _, True).
Proof.
  intros Hd. eapply hoare_bind; [apply hoare_acquire|]. intros _ _.
  intros w [] w' (Hh & Hr & Ha) [= <-]. split; [|done].
  split; [done|]. split; [|done]. simpl.
  apply Forall_app. split; [done|]. by constructor.
Qed.

Lemma hoare_detachWith m d : consistent d → hoare (detachWith m d) consistent.
Proof.
  intros Hd. eapply hoare_bind; [apply hoare_release|]. intros _ _.
  eapply hoare_bind; [by apply hoare_openEdit|]. intros _ _.
  by apply hoare_ret.
Qed.

Lemma hoare_Member_copy_ctor_with Tc other :
  consistent other → (∀ o, obj_ok o → hoare (Tc o) obj_ok) →
  hoare (Member_copy_ctor_with Tc other) consistent.
Proof.
  intros Ho HTc. eapply hoare_bind; [by apply (hoare_gets _ (λ _, True))|].
  intros d _. destruct d.
  - eapply hoare_bind; [by apply (hoare_lift_opt _ (λ _, True))|]. intros q _.
    eapply hoare_bind; [apply hoare_load|]. intros o Hoo.
    apply hoare_Data_construct. by apply HTc.
  - eapply hoare_bind; [apply hoare_acquire|]. intros _ _.
    by apply hoare_ret.
Qed.

Lemma hoare_T_copy fuel o : obj_ok o → hoare (T_copy fuel o) obj_ok.
Proof.
  revert o. induction fuel as [|f IH]; intros o Ho; simpl.
  - apply hoare_fail.
  - eapply hoare_bind.
    + apply (hoare_mapM _ consistent consistent); [|exact Ho].
      intros m Hm. by apply hoare_Member_copy_ctor_with.
    + intros ms Hms. by apply hoare_ret.
Qed.

Lemma hoare_read_src s : src_ok s → hoare (read_src s) obj_ok.
Proof. destruct s; intros Hs; [apply hoare_load | by apply hoare_ret]. Qed.

Lemma hoare_T_ctor fuel s : src_ok s → hoare (T_ctor fuel s) obj_ok.
Proof.
  intros Hs. eapply hoare_bind; [by apply hoare_read_src|].
  intros o Ho. by apply hoare_T_copy.
Qed.

Lemma hoare_set_member p i m : consistent m → hoare (set_member p i m) (λ _, True).
Proof.
  intros Hm. eapply hoare_bind; [apply hoare_load|]. intros o Ho.
  apply hoare_store. unfold obj_ok in *. simpl.
  destruct (decide (i < length (members o))) as [Hi|Hi].
  - rewrite insert_take_drop; [|done]. apply Forall_app. split.
    + by apply Forall_take.
    + constructor; [done|]. by apply Forall_drop.
  - rewrite list_insert_ge; [done|lia].
Qed.

Lemma hoare_Member_assign_with Tassign fuel m s :
  consistent m → src_ok s →
  (∀ q s', src_ok s' → hoare (Tassign q s') (λ _, True)) →
  hoare (Member_assign_with Tassign (T_ctor fuel) m s) consistent.
Proof.
  intros Hm Hs Ha. unfold Member_assign_with, detached.
  eapply hoare_bind.
  { eapply hoare_bind; [by apply (hoare_gets _ (λ _, True))|]. intros d _.
    destruct d; [by apply (hoare_ret _ (λ _, True))|].
    by apply (hoare_gets _ (λ _, True)). }
  intros d _. destruct d.
  - eapply hoare_bind; [by apply (hoare_lift_opt _ (λ _, True))|]. intros q _.
    eapply hoare_bind; [by apply Ha|]. intros _ _. by apply hoare_ret.
  - eapply hoare_bind; [by apply hoare_Data_construct, hoare_T_ctor|].
    intros new Hnew. by apply hoare_detachWith.
Qed.

Lemma members_lookup_consistent o i m :
  obj_ok o → members o !! i = Some m → consistent m.
Proof.
  intros Ho Hi. eapply Forall_forall; [exact Ho|].
  eapply list_elem_of_lookup_2. exact Hi.
Qed.

Lemma hoare_T_assign fuel tgt s : src_ok s → hoare (T_assign fuel tgt s) (λ _, True).
Proof.
  revert tgt s. induction fuel as [|f IH]; intros tgt s Hs; simpl.
  - apply hoare_fail.
  - eapply hoare_bind; [by apply hoare_read_src|]. intros so Hso.
    eapply hoare_bind; [apply hoare_load|]. intros to Hto.
    eapply hoare_bind; [by apply hoare_store|]. intros _ _.
    apply hoare_forM. intros i.
    eapply hoare_bind; [by apply hoare_read_src|]. intros so' Hso'.
    eapply hoare_bind.
    { apply (hoare_lift_opt _ consistent). intros sm Hsm.
      by apply (members_lookup_consistent so' i). }
    intros sm Hsm.
    eapply hoare_bind; [apply hoare_load|]. intros to' Hto'.
    eapply hoare_bind.
    { apply (hoare_lift_opt _ consistent). intros tm Htm.
      by apply (members_lookup_consistent to' i). }
    intros tm Htm.
    eapply hoare_bind; [by apply (hoare_lift_opt _ (λ _, True))|]. intros sq _.
    eapply hoare_bind.
    { apply hoare_Member_assign_with; [done|done|]. intros q s' Hs'. by apply IH. }
    intros tm' Htm'. by apply hoare_set_member.
Qed.

Lemma hoare_detached m : hoare (detached m) (λ _, True).
Proof.
  eapply hoare_bind; [by apply (hoare_gets _ (λ _, True))|]. intros d _.
  destruct d; [by apply hoare_ret|]. by apply hoare_gets.
Qed.

Lemma hoare_Member_copy_assign fuel m other :
  consistent m → hoare (Member_copy_assign fuel m other) consistent.
Proof.
  intros Hm. eapply hoare_bind; [apply hoare_detached|]. intros d _. destruct d.
  - eapply hoare_bind; [by apply (hoare_lift_opt _ (λ _, True))|]. intros q _.
    eapply hoare_bind; [by apply (hoare_lift_opt _ (λ _, True))|]. intros sq _.
    eapply hoare_bind; [by apply hoare_T_assign|]. intros _ _. by apply hoare_ret.
  - eapply hoare_bind; [by apply (hoare_lift_opt _ (λ _, True))|]. intros sq _.
    eapply hoare_bind; [apply hoare_load|]. intros o Ho.
    eapply hoare_bind; [by apply hoare_Data_construct, hoare_T_copy|].
    intros new Hnew. by apply hoare_detachWith.
Qed.

Lemma hoare_Member_value_assign fuel m u :
  consistent m → obj_ok u → hoare (Member_value_assign fuel m u) consistent.
Proof.
  intros Hm Hu. eapply hoare_bind; [apply hoare_detached|]. intros d _. destruct d.
  - eapply hoare_bind; [by apply (hoare_lift_opt _ (λ _, True))|]. intros q _.
    eapply hoare_bind; [by apply hoare_T_assign|]. intros _ _. by apply hoare_ret.
  - eapply hoare_bind; [by apply hoare_Data_construct, hoare_T_copy|].
    intros new Hnew. by apply hoare_detachWith.
Qed.

Lemma hoare_Member_get fuel m :
  consistent m → hoare (Member_get fuel m) (λ r, consistent (fst r)).
Proof.
  intros Hm. eapply hoare_bind; [apply hoare_detached|]. intros d _.
  eapply (hoare_bind _ _ consistent).
  - destruct d; simpl; [by apply hoare_ret|].
    eapply hoare_bind; [by apply (hoare_lift_opt _ (λ _, True))|]. intros q _.
    eapply hoare_bind; [apply hoare_load|]. intros o Ho.
    eapply hoare_bind; [by apply hoare_Data_construct, hoare_T_copy|].
    intros new Hnew. by apply hoare_detachWith.
  - intros m' Hm'.
    eapply hoare_bind; [by apply (hoare_lift_opt _ (λ _, True))|]. intros p _.
    by apply hoare_ret.
Qed.

Lemma hoare_in_member {A} p i (op : Data → kz (Data * A)) :
  (∀ m, consistent m → hoare (op m) (λ r, consistent (fst r))) →
  hoare (in_member p i op) (λ _, True).
Proof.
  intros Hop. eapply hoare_bind; [apply hoare_load|]. intros o Ho.
  eapply hoare_bind.
  { apply (hoare_lift_opt _ consistent). intros m Hm.
    by apply (members_lookup_consistent o i). }
  intros m Hm. eapply hoare_bind; [by apply Hop|]. intros r Hr.
  eapply hoare_bind; [by apply hoare_set_member|]. intros _ _. by apply hoare_ret.
Qed.

Lemma world_ok_same w w' :
  heap w' = heap w → refs w' = refs w → next w' = next w →
  m_openEdits (root w') = m_openEdits (root w) →
  world_ok w → world_ok w'.
Proof.
  intros Hh Hr Hn Hreg. unfold world_ok, alloc_ok. by rewrite Hh, Hr, Hn, Hreg.
Qed.

Lemma hoare_modify_same (f : World → World) :
  (∀ w, heap (f w) = heap w ∧ refs (f w) = refs w ∧ next (f w) = next w
        ∧ m_openEdits (root (f w)) = m_openEdits (root w)) →
  hoare (modify f) (λ _, True).
Proof.
  intros Hf w [] w' Hok [= <-]. split; [|done].
  destruct (Hf w) as (? & ? & ? & ?). by apply (world_ok_same w).
Qed.

Lemma hoare_beginTransaction fuel : hoare (beginTransaction fuel) (λ _, True).
Proof.
  unfold beginTransaction. eapply (hoare_bind _ _ (λ _, True)).
  { unfold impl_beginTransaction.
    eapply hoare_bind; [by apply (hoare_gets _ (λ _, True))|]. intros l _.
    destruct l; [apply hoare_fail|]. by apply hoare_modify_same. }
  intros _ _.
  eapply hoare_bind; [by apply (hoare_gets _ (λ _, True))|]. intros r _.
  eapply hoare_bind; [by apply (hoare_lift_opt _ (λ _, True))|]. intros q _.
  eapply hoare_bind; [apply hoare_load|]. intros o Ho.
  eapply hoare_bind; [by apply hoare_Data_construct, hoare_T_copy|].
  intros new Hnew.
  eapply hoare_bind; [by apply hoare_detachWith|]. intros r' Hr'.
  eapply (hoare_bind _ _ (λ _, True)); [|intros _ _; by apply hoare_lift_opt].
  by apply hoare_modify_same.
Qed.

Lemma hoare_endTransaction : hoare endTransaction (λ _, True).
Proof.
  unfold endTransaction, impl_endTransaction.
  eapply hoare_bind; [by apply (hoare_gets _ (λ _, True))|]. intros l _.
  destruct l; simpl; [|apply hoare_fail].
  eapply hoare_bind; [by apply (hoare_gets _ (λ _, True))|]. intros r _.
  eapply hoare_bind; [apply hoare_acquire|]. intros _ _.
  eapply hoare_bind; [apply hoare_release|]. intros _ _.
  eapply (hoare_bind _ _ (λ _, True)); [by apply hoare_modify_same|].
  intros _ _.
  eapply hoare_bind.
  { apply hoare_forM. intros e. apply hoare_release. }
  intros _ _.
  eapply (hoare_bind _ _ (λ _, True)).
  { intros w [] w' (Hh & Hr & Ah) [= <-]. split; [|done].
    split; [done|]. split; [|done]. simpl. constructor. }
  intros _ _. by apply hoare_modify_same.
Qed.

Lemma hoare_detachedPayload : hoare detachedPayload (λ _, True).
Proof.
  eapply hoare_bind; [by apply (hoare_gets _ (λ _, True))|]. intros p _.
  eapply hoare_bind; [apply hoare_acquire|]. intros _ _. by apply hoare_ret.
Qed.

Lemma hoare_exec fuel op : op_ok op → hoare (exec fuel op) (λ _, True).
Proof.
  intros Hop. destruct op; simpl.
  - eapply hoare_bind; [apply hoare_beginTransaction|]. intros _ _. by apply hoare_ret.
  - apply hoare_endTransaction.
  - eapply hoare_bind; [apply hoare_detachedPayload|]. intros _ _. by apply hoare_ret.
  - eapply hoare_bind; [|intros _ _; by apply hoare_ret].
    apply hoare_in_member. intros m Hm. by apply hoare_Member_get.
  - eapply hoare_bind; [apply hoare_load|]. intros o Ho. by apply hoare_store.
  - eapply hoare_bind; [apply hoare_load|]. intros o' Ho'.
    eapply hoare_bind; [by apply (hoare_lift_opt _ (λ _, True))|]. intros other _.
    apply hoare_in_member. intros m Hm.
    eapply hoare_bind; [by apply hoare_Member_copy_assign|]. intros m' Hm'.
    by apply hoare_ret.
  - apply hoare_in_member. intros m Hm.
    eapply hoare_bind; [by apply hoare_Member_value_assign|]. intros m' Hm'.
    by apply hoare_ret.
Qed.

Lemma hoare_run fuel ops : Forall op_ok ops → hoare (run fuel ops) (λ _, True).
Proof.
  unfold run. induction 1 as [|op ops Hop _ IH]; simpl.
  - by apply hoare_ret.
  - eapply hoare_bind; [by apply hoare_exec|]. intros _ _. exact IH.
Qed.

Lemma hoare_RootObject_ctor obj :
  consistent obj → hoare (RootObject_ctor obj) (λ _, True).
Proof.
  intros Ho. unfold RootObject_ctor, impl_RootObject_ctor, takeData.
  eapply hoare_bind.
  { eapply hoare_bind; [apply hoare_release|]. intros _ _.
    by apply (hoare_ret _ (λ _, True)). }
  intros r _.
  eapply hoare_bind; [apply hoare_acquire|]. intros _ _.
  intros w [] w' (Hh & Hr & Ah) [= <-]. split; [|done].
  split; [done|]. split; [|done]. simpl. constructor.
Qed.

Lemma world_ok_empty : world_ok empty_world.
Proof.
  split; [apply map_Forall_empty|]. split; [constructor|].
  split; apply map_Forall_empty.
Qed.

(** **** X7 *)

(** X7: handles stay as [Data::construct] makes them.  Starting from
    nothing, constructing a new object by a constructor that builds
    consistent handles, making it a root and running any program of
    client calls whose assigned values hold consistent handles ends in a
    world where every handle held in a block or in the registry has its
    quick pointer equal to the block its shared pointer owns, and where
    no block lies at or beyond the allocator's next address. *)
Theorem handles_stay_consistent (fuel : nat) (ctor : kz Obj) (ops : list Op)
    (w' : World) :
  hoare ctor obj_ok → Forall op_ok ops →
  (obj <- NewObject_ctor ctor ;; RootObject_ctor obj ;;; run fuel ops) empty_world
  = Some (tt, w') →
  world_ok w'
  ∧ (∀ a o m, heap w' !! a = Some o → m ∈ members o →
       qdata m = payload m ∧ is_Some (payload m))
  ∧ (∀ e, e ∈ m_openEdits (root w') → qdata e = payload e)
  ∧ heap w' !! next w' = None.
Proof.
  intros Hc Hops E.
  assert (hoare (obj <- NewObject_ctor ctor ;; RootObject_ctor obj ;;; run fuel ops)
            (λ _, True)) as H.
  { eapply hoare_bind.
    - unfold NewObject_ctor, setData.
      eapply hoare_bind; [by apply hoare_Data_construct|]. intros d Hd.
      apply hoare_ret. exact Hd.
    - intros obj Hobj. eapply hoare_bind; [by apply hoare_RootObject_ctor|].
      intros _ _. by apply hoare_run. }
  destruct (H _ _ _ world_ok_empty E) as [Hok _].
  split; [done|]. destruct Hok as (Hh & Hr & Ha). split; [|split].
  - intros a o m Ho Hm. pose proof (map_Forall_lookup_1 _ _ _ _ Hh Ho) as Hoo.
    exact (proj1 (Forall_forall _ _) Hoo m Hm).
  - intros e He. exact (proj1 (proj1 (Forall_forall _ _) Hr e He)).
  - exact (proj1 (alloc_ok_fresh w' Ha)).
Qed.

Lemma hoare_leaf v : hoare (leaf v) obj_ok.
Proof. apply hoare_ret. constructor. Qed.

Lemma hoare_pair_ctor x y : hoare (pair_ctor x y) obj_ok.
Proof.
  unfold pair_ctor, Member_ctor.
  eapply hoare_bind; [apply hoare_Data_construct, hoare_leaf|]. intros a Ha.
  eapply hoare_bind; [apply hoare_Data_construct, hoare_leaf|]. intros b Hb.
  apply hoare_ret. unfold obj_ok. simpl.
  constructor; [done|]. constructor; [done|]. constructor.
Qed.

Lemma handles_stay_consistent_witness :
  ∃ w', (obj <- NewObject_ctor (pair_ctor 1 2) ;;
         RootObject_ctor obj ;;;
         run 1 two_transactions) empty_world = Some (tt, w')
        ∧ world_ok w'.
Proof.
  destruct ((obj <- NewObject_ctor (pair_ctor 1 2) ;;
             RootObject_ctor obj ;;;
             run 1 two_transactions) empty_world) as [[[] w']|] eqn:E;
    [|vm_compute in E; discriminate].
  exists w'. split; [reflexivity|].
  apply (handles_stay_consistent 1 (pair_ctor 1 2) two_transactions w').
  - apply hoare_pair_ctor.
  - repeat constructor.
  - exact E.
Defined.

(** ** Blocks outside the registry are not written *)

#[global] Instance isoR_preorder : PreOrder isoR.
Proof.
  split.
  - intros w. unfold isoR. done.
  - intros w1 w2 w3 (H1 & P1 & D1) (H2 & P2 & D2). unfold isoR.
    split; [|split; [by transitivity (m_openEdits (root w2))|congruence]].
    intros b ob Hb Hr. destruct (H1 b ob Hb Hr) as [Hb2 Hr2]. by apply H2.
Qed.

#[global] Instance quietR_preorder : PreOrder quietR.
Proof.
  split.
  - intros w Hd. done.
  - intros w1 w2 w3 H1 H2 Hd.
    destruct (H1 Hd) as (A1 & B1 & C1 & D1).
    destruct H2 as (A2 & B2 & C2 & D2); [congruence|].
    repeat split; congruence.
Qed.

Lemma isoR_same w w' :
  heap w' = heap w → root w' = root w → depth w' = depth w → isoR w w'.
Proof.
  intros Hh Hr Hd. unfold isoR, block_registered, registered.
  rewrite Hh, Hr, Hd. done.
Qed.

Lemma acquire_frame p w w' :
  acquire p w = Some (tt, w') →
  heap w' = heap w ∧ root w' = root w ∧ next w' = next w ∧ depth w' = depth w.
Proof.
  destruct p as [a|].
  - intros E. by destruct (acquire_inv_refs _ _ _ E) as (n & _ & ->).
  - by intros [= <-].
Qed.

Lemma release_frame p w w' :
  release p w = Some (tt, w') →
  heap w' = heap w ∧ root w' = root w ∧ next w' = next w ∧ depth w' = depth w.
Proof.
  destruct p as [a|].
  - intros E. by destruct (release_inv_refs _ _ _ E) as (n & _ & ->).
  - by intros [= <-].
Qed.

Lemma quietR_T_copy fuel o : respects quietR (T_copy fuel o).
Proof.
  revert o. induction fuel as [|f IH]; intros o; simpl.
  - apply (respects_fail quietR).
  - apply (respects_bind quietR); [|intros ms; apply (respects_ret quietR)].
    apply (respects_mapM quietR). intros m w r w' E Hd.
    unfold Member_copy_ctor_with, deep, bind at 1, gets in E.
    destruct (Nat.eqb_spec (depth w) 0) as [|_]; [done|].
    destruct (bind_inv _ _ _ _ E) as ([] & w1 & E1 & E2).
    injection E2 as _ <-. exact (acquire_frame _ _ _ E1).
Qed.

Lemma detachWith_frame m d w r w' :
  detachWith m d w = Some (r, w') →
  r = d ∧ heap w' = heap w ∧ next w' = next w ∧ depth w' = depth w
  ∧ m_openEdits (root w') = m_openEdits (root w) ++ [d].
Proof.
  unfold detachWith, openEdit. intros E.
  destruct (bind_inv _ _ _ _ E) as ([] & w1 & E1 & E2).
  destruct (release_frame _ _ _ E1) as (H1 & R1 & N1 & D1).
  destruct (bind_inv _ _ _ _ E2) as ([] & w2 & E3 & E4). injection E4 as <- <-.
  destruct (bind_inv _ _ _ _ E3) as ([] & w3 & E5 & E6). injection E6 as <-.
  destruct (acquire_frame _ _ _ E5) as (H3 & R3 & N3 & D3).
  simpl. rewrite H3, N3, D3, R3, H1, N1, D1, R1. done.
Qed.

Lemma block_registered_app b l d w w' :
  m_openEdits (root w) = l → m_openEdits (root w') = l ++ [d] →
  payload d ≠ Some b →
  block_registered b w = false → block_registered b w' = false.
Proof.
  intros Hl Hl' Hd. unfold block_registered, registered. rewrite Hl, Hl'.
  rewrite existsb_app. intros ->. simpl.
  rewrite bool_decide_eq_false_2; done.
Qed.

(** Detaching with a copy writes one new block and registers it. *)
Lemma isoR_detach_copy fuel o m w r w' :
  world_ok w → depth w ≠ 0 →
  (new <- Data_construct (T_copy fuel o) ;; detachWith m new) w = Some (r, w') →
  isoR w w'.
Proof.
  intros (_ & _ & Hok) Hd E.
  destruct (alloc_ok_fresh w Hok) as [Hfh _].
  destruct (bind_inv _ _ _ _ E) as (new & w2 & E1 & E2).
  unfold Data_construct in E1.
  destruct (bind_inv _ _ _ _ E1) as (o' & w1 & E3 & E4).
  destruct (quietR_T_copy fuel o _ _ _ E3 Hd) as (H1 & R1 & N1 & D1).
  rewrite (bind_Some _ _ _ _ _ (make_shared_run o' w1)) in E4.
  injection E4 as <- <-.
  destruct (detachWith_frame _ _ _ _ _ E2) as (_ & H3 & N3 & D3 & R3).
  simpl in H3, N3, D3, R3. rewrite N1 in H3, R3. rewrite H1 in H3.
  rewrite R1 in R3. unfold isoR. split; [|split].
  - intros b ob Hb Hr.
    assert (b ≠ next w) as Hne by (intros ->; congruence).
    split.
    + rewrite H3. by rewrite lookup_insert_ne.
    + eapply block_registered_app; [reflexivity|exact R3| |exact Hr].
      simpl. congruence.
  - rewrite R3. by apply prefix_app_r.
  - congruence.
Qed.

Lemma isoR_store a o o0 w :
  heap w !! a = Some o0 → block_registered a w = true →
  isoR w (set_heap (insert a o) w).
Proof.
  intros Ho Hr. unfold isoR. split; [|done].
  intros b ob Hb Hrb. split; [|done].
  simpl. rewrite lookup_insert_ne; [done|]. intros ->. congruence.
Qed.

Lemma block_registered_isoR b w w' :
  isoR w w' → block_registered b w = true → block_registered b w' = true.
Proof. intros (_ & P & _). by apply registered_prefix. Qed.

Lemma stable_registered b : stable (λ w, block_registered b w = true).
Proof. intros w w'. apply block_registered_isoR. Qed.

Lemma stable_True : stable (λ _, True).
Proof. done. Qed.

Lemma iso_pure (P : World → Prop) {A} (m : kz A) (Q : A → Prop) :
  hoare m Q → (∀ w r w', m w = Some (r, w') → w' = w) → iso P m Q.
Proof.
  intros Hm Hp w r w' Hok Hd HP E. pose proof (Hp _ _ _ E) as ->.
  destruct (Hm _ _ _ Hok E). done.
Qed.

Lemma iso_ret (P : World → Prop) {A} (x : A) (Q : A → Prop) : Q x → iso P (ret x) Q.
Proof. intros HQ w r w' Hok Hd HP [= <- <-]. done. Qed.

Lemma iso_fail (P : World → Prop) {A} (Q : A → Prop) : iso P fail Q.
Proof. intros w r w' _ _ _ E. discriminate E. Qed.

Lemma iso_bind (P : World → Prop) {A B} (m : kz A) (k : A → kz B)
    (Q1 : A → Prop) (Q2 : B → Prop) :
  stable P → iso P m Q1 → (∀ x, Q1 x → iso P (k x) Q2) → iso P (bind m k) Q2.
Proof.
  intros HP Hm Hk w r w' Hok Hd Hw E.
  destruct (bind_inv _ _ _ _ E) as (x & w1 & E1 & E2).
  destruct (Hm _ _ _ Hok Hd Hw E1) as (Hok1 & R1 & HQ1).
  assert (depth w1 ≠ 0) as Hd1 by (destruct R1 as (_ & _ & ->); done).
  destruct (Hk x HQ1 _ _ _ Hok1 Hd1 (HP _ _ R1 Hw) E2) as (Hok2 & R2 & HQ2).
  split; [done|]. split; [by transitivity w1|done].
Qed.

Lemma iso_weaken_pre (P P' : World → Prop) {A} (m : kz A) (Q : A → Prop) :
  (∀ w, P' w → P w) → iso P m Q → iso P' m Q.
Proof. intros HP Hm w r w' Hok Hd Hw E. apply Hm; auto. Qed.

Lemma iso_forM (P : World → Prop) {A} (g : A → kz unit) (l : list A) :
  stable P → (∀ x, iso P (g x) (λ _, True)) → iso P (forM_kz g l) (λ _, True).
Proof.
  intros HP Hg. induction l as [|x l IH]; simpl.
  - by apply iso_ret.
  - eapply iso_bind; [done|apply Hg|]. intros _ _. exact IH.
Qed.

Lemma iso_lift_opt (P : World → Prop) {A} (o : option A) (Q : A → Prop) :
  (∀ x, o = Some x → Q x) → iso P (lift_opt o) Q.
Proof.
  intros HQ. destruct o as [x|]; [|apply iso_fail]. apply iso_ret. by apply HQ.
Qed.

Lemma iso_load (P : World → Prop) a : iso P (load a) obj_ok.
Proof.
  apply iso_pure; [apply hoare_load|].
  intros w r w' E. by destruct (load_inv _ _ _ _ E).
Qed.

Lemma iso_read_src (P : World → Prop) s : src_ok s → iso P (read_src s) obj_ok.
Proof.
  intros Hs. apply iso_pure; [by apply hoare_read_src|].
  intros w r w'. apply read_src_inv.
Qed.

Lemma iso_store a o :
  obj_ok o → iso (λ w, block_registered a w = true) (store a o) (λ _, True).
Proof.
  intros Ho w r w' Hok Hd Hr E.
  destruct (hoare_store a o Ho _ _ _ Hok E) as [Hok' _].
  split; [done|]. split; [|done]. unfold store in E.
  destruct (bind_inv _ _ _ _ E) as (o0 & w1 & E1 & E2).
  destruct (load_inv _ _ _ _ E1) as [-> Ho0].
  unfold modify in E2. injection E2 as _ <-. by apply (isoR_store a o o0).
Qed.

Lemma iso_set_member p i m :
  consistent m →
  iso (λ w, block_registered p w = true) (set_member p i m) (λ _, True).
Proof.
  intros Hm. eapply iso_bind; [apply stable_registered|apply iso_load|].
  intros o Ho. apply iso_store. unfold obj_ok in *. simpl.
  destruct (decide (i < length (members o))) as [Hi|Hi].
  - rewrite insert_take_drop; [|done]. apply Forall_app. split.
    + by apply Forall_take.
    + constructor; [done|]. by apply Forall_drop.
  - rewrite list_insert_ge; [done|lia].
Qed.

Lemma iso_detach_copy (P : World → Prop) fuel o m :
  obj_ok o →
  iso P (new <- Data_construct (T_copy fuel o) ;; detachWith m new) consistent.
Proof.
  intros Ho w r w' Hok Hd _ E.
  assert (hoare (new <- Data_construct (T_copy fuel o) ;; detachWith m new)
            consistent) as H.
  { eapply hoare_bind; [by apply hoare_Data_construct, hoare_T_copy|].
    intros new Hnew. by apply hoare_detachWith. }
  destruct (H _ _ _ Hok E) as [Hok' Hr].
  split; [done|]. split; [|done]. by apply (isoR_detach_copy fuel o m w r w').
Qed.

Lemma registered_consistent m q w :
  consistent m → qdata m = Some q → block_registered q w = registered m w.
Proof.
  intros [Hc _] Hq. unfold block_registered, registered. simpl.
  by rewrite <- Hc, Hq.
Qed.

(** The two assignment operators and T's assignment, when the block
    assigned to is registered. *)
Lemma iso_Member_assign_with (P : World → Prop) Tassign fuel m s :
  consistent m → src_ok s →
  (∀ q s', src_ok s' →
     iso (λ w, block_registered q w = true) (Tassign q s') (λ _, True)) →
  iso P (Member_assign_with Tassign (T_ctor fuel) m s) consistent.
Proof.
  intros Hm Hs Ha w r w' Hok Hd _ E. unfold Member_assign_with in E.
  rewrite (bind_Some _ _ _ _ _ (detached_shallow m w Hd)) in E.
  destruct (registered m w) eqn:Hr.
  - destruct (bind_inv _ _ _ _ E) as (q & w1 & E1 & E2).
    unfold qget in E1. destruct (qdata m) as [q0|] eqn:Hq; [|done].
    injection E1 as <- <-.
    destruct (bind_inv _ _ _ _ E2) as ([] & w1 & E3 & E4). injection E4 as <- <-.
    destruct (Ha q0 s Hs w tt w1 Hok Hd) as (Hok1 & R1 & _); [|done|done].
    by rewrite (registered_consistent m q0 w).
  - unfold T_ctor, Data_construct in E. rewrite !bind_assoc in E.
    destruct (bind_inv _ _ _ _ E) as (o & w1 & E1 & E2).
    pose proof (read_src_inv _ _ _ _ E1) as ->.
    destruct (hoare_read_src s Hs _ _ _ Hok E1) as [_ Ho].
    apply (iso_detach_copy (λ _, True) fuel o m Ho w r w' Hok Hd I).
    unfold Data_construct. by rewrite !bind_assoc.
Qed.

Lemma iso_T_assign fuel tgt s :
  src_ok s → iso (λ w, block_registered tgt w = true) (T_assign fuel tgt s) (λ _, True).
Proof.
  revert tgt s. induction fuel as [|f IH]; intros tgt s Hs; simpl.
  - apply iso_fail.
  - pose proof (stable_registered tgt) as Hst.
    eapply iso_bind; [done|by apply iso_read_src|]. intros so Hso.
    eapply iso_bind; [done|apply iso_load|]. intros to Hto.
    eapply iso_bind; [done|by apply iso_store|]. intros _ _.
    apply iso_forM; [done|]. intros i.
    eapply iso_bind; [done|by apply iso_read_src|]. intros so' Hso'.
    eapply iso_bind; [done| |].
    { apply (iso_lift_opt _ _ consistent). intros sm Hsm.
      by apply (members_lookup_consistent so' i). }
    intros sm Hsm.
    eapply iso_bind; [done|apply iso_load|]. intros to' Hto'.
    eapply iso_bind; [done| |].
    { apply (iso_lift_opt _ _ consistent). intros tm Htm.
      by apply (members_lookup_consistent to' i). }
    intros tm Htm.
    eapply iso_bind; [done|by apply (iso_lift_opt _ _ (λ _, True))|]. intros sq _.
    eapply iso_bind; [done| |].
    { apply iso_Member_assign_with; [done|done|]. intros q s' Hs'. by apply IH. }
    intros tm' Htm'. by apply iso_set_member.
Qed.

Lemma iso_Member_copy_assign (P : World → Prop) fuel m other :
  consistent m → iso P (Member_copy_assign fuel m other) consistent.
Proof.
  intros Hm w r w' Hok Hd _ E. unfold Member_copy_assign in E.
  rewrite (bind_Some _ _ _ _ _ (detached_shallow m w Hd)) in E.
  destruct (registered m w) eqn:Hr.
  - destruct (bind_inv _ _ _ _ E) as (q & w1 & E1 & E2).
    unfold qget in E1. destruct (qdata m) as [q0|] eqn:Hq; [|done].
    injection E1 as <- <-.
    destruct (bind_inv _ _ _ _ E2) as (sq & w1 & E3 & E4).
    unfold Member_get_const in E3. destruct (qdata other) as [sq0|]; [|done].
    injection E3 as <- <-.
    destruct (bind_inv _ _ _ _ E4) as ([] & w1 & E5 & E6). injection E6 as <- <-.
    destruct (iso_T_assign fuel q0 (InBlock sq0) I w tt w1 Hok Hd) as (Hok1 & R1 & _);
      [|done|done].
    by rewrite (registered_consistent m q0 w).
  - destruct (bind_inv _ _ _ _ E) as (sq & w1 & E1 & E2).
    unfold Member_get_const in E1. destruct (qdata other); [|done].
    injection E1 as <- <-.
    destruct (bind_inv _ _ _ _ E2) as (o & w1 & E3 & E4).
    destruct (hoare_load _ _ _ _ Hok E3) as [_ Ho].
    destruct (load_inv _ _ _ _ E3) as [-> _].
    exact (iso_detach_copy (λ _, True) fuel o m Ho w r w' Hok Hd I E4).
Qed.

Lemma iso_Member_value_assign (P : World → Prop) fuel m u :
  consistent m → obj_ok u → iso P (Member_value_assign fuel m u) consistent.
Proof.
  intros Hm Hu w r w' Hok Hd _ E. unfold Member_value_assign in E.
  rewrite (bind_Some _ _ _ _ _ (detached_shallow m w Hd)) in E.
  destruct (registered m w) eqn:Hr.
  - destruct (bind_inv _ _ _ _ E) as (q & w1 & E1 & E2).
    unfold qget in E1. destruct (qdata m) as [q0|] eqn:Hq; [|done].
    injection E1 as <- <-.
    destruct (bind_inv _ _ _ _ E2) as ([] & w1 & E5 & E6). injection E6 as <- <-.
    destruct (iso_T_assign fuel q0 (Local u) Hu w tt w1 Hok Hd) as (Hok1 & R1 & _);
      [|done|done].
    by rewrite (registered_consistent m q0 w).
  - exact (iso_detach_copy (λ _, True) fuel u m Hu w r w' Hok Hd I E).
Qed.

Lemma iso_Member_get (P : World → Prop) fuel m :
  consistent m → iso P (Member_get fuel m) (λ r, consistent (fst r)).
Proof.
  intros Hm w r w' Hok Hd _ E. unfold Member_get in E.
  rewrite (bind_Some _ _ _ _ _ (detached_shallow m w Hd)) in E.
  destruct (bind_inv _ _ _ _ E) as (m' & w1 & E1 & E2).
  destruct (bind_inv _ _ _ _ E2) as (p & w2 & E3 & E4).
  unfold qget in E3. destruct (qdata m'); [|done].
  injection E3 as <- <-. injection E4 as <- <-. simpl.
  destruct (registered m w); simpl in E1.
  - injection E1 as <- <-. done.
  - destruct (bind_inv _ _ _ _ E1) as (q & w3 & E5 & E6).
    unfold Member_get_const in E5. destruct (qdata m); [|done].
    injection E5 as <- <-.
    destruct (bind_inv _ _ _ _ E6) as (o & w3 & E7 & E8).
    destruct (hoare_load _ _ _ _ Hok E7) as [_ Ho].
    destruct (load_inv _ _ _ _ E7) as [-> _].
    exact (iso_detach_copy (λ _, True) fuel o m Ho w m' w1 Hok Hd I E8).
Qed.

Lemma iso_in_member {A} p i (op : Data → kz (Data * A)) :
  (∀ m, consistent m →
     iso (λ w, block_registered p w = true) (op m) (λ r, consistent (fst r))) →
  iso (λ w, block_registered p w = true) (in_member p i op) (λ _, True).
Proof.
  intros Hop. pose proof (stable_registered p) as Hst.
  eapply iso_bind; [done|apply iso_load|]. intros o Ho.
  eapply iso_bind; [done| |].
  { apply (iso_lift_opt _ _ consistent). intros m Hm.
    by apply (members_lookup_consistent o i). }
  intros m Hm. eapply iso_bind; [done|by apply Hop|]. intros r Hr.
  eapply iso_bind; [done|by apply iso_set_member|]. intros _ _. by apply iso_ret.
Qed.

Lemma iso_exec fuel op :
  op_ok op → iso (λ w, guarded op w = true) (exec fuel op) (λ _, True).
Proof.
  intros Hop. destruct op; simpl.
  - intros w r w' _ _ Hg. done.
  - intros w r w' _ _ Hg. done.
  - intros w r w' Hok Hd _ E.
    destruct (hoare_exec fuel OSnapshot I _ _ _ Hok E) as [Hok' _].
    split; [done|]. split; [|done]. simpl in E.
    destruct (bind_inv _ _ _ _ E) as (s & w1 & E1 & E2). injection E2 as _ <-.
    unfold detachedPayload, detachedRoot in E1.
    destruct (bind_inv _ _ _ _ E1) as (s0 & w0 & E3 & E4). injection E3 as <- <-.
    destruct (bind_inv _ _ _ _ E4) as ([] & w2 & E5 & E6). injection E6 as _ <-.
    destruct (acquire_frame _ _ _ E5) as (Hh & Hr & _ & Hdd). by apply isoR_same.
  - eapply iso_bind; [apply stable_registered| |intros _ _; by apply iso_ret].
    apply iso_in_member. intros m Hm. by apply iso_Member_get.
  - eapply iso_bind; [apply stable_registered|apply iso_load|].
    intros o Ho. by apply iso_store.
  - pose proof (stable_registered p) as Hst.
    eapply iso_bind; [done|apply iso_load|]. intros o' Ho'.
    eapply iso_bind; [done|by apply (iso_lift_opt _ _ (λ _, True))|]. intros other _.
    apply iso_in_member. intros m Hm.
    eapply iso_bind; [done|by apply iso_Member_copy_assign|]. intros m' Hm'.
    by apply iso_ret.
  - apply iso_in_member. intros m Hm.
    eapply iso_bind; [apply stable_registered|by apply iso_Member_value_assign|].
    intros m' Hm'. by apply iso_ret.
Qed.

Lemma iso_run_guarded fuel ops :
  Forall op_ok ops → iso (λ _, True) (run_guarded fuel ops) (λ _, True).
Proof.
  unfold run_guarded. induction 1 as [|op ops Hop _ IH]; simpl.
  - by apply iso_ret.
  - eapply iso_bind; [apply stable_True| |intros _ _; exact IH].
    intros w r w' Hok Hd _ E. unfold exec_guarded in E.
    destruct (bind_inv _ _ _ _ E) as (g & w1 & E1 & E2). injection E1 as <- <-.
    destruct (guarded op w) eqn:Hg; [|done].
    exact (iso_exec fuel op Hop w r w' Hok Hd Hg E2).
Qed.

Lemma beginTransaction_iso fuel w p w1 :
  world_ok w → beginTransaction fuel w = Some (p, w1) →
  (∀ b ob, heap w !! b = Some ob → block_registered b w = false →
     heap w1 !! b = Some ob ∧ block_registered b w1 = false)
  ∧ block_registered p w1 = true ∧ heap w !! p = None.
Proof.
  intros Hok E. unfold beginTransaction in E.
  destruct (bind_inv _ _ _ _ E) as ([] & w0 & E0 & E1). clear E.
  unfold impl_beginTransaction, bind at 1, gets in E0.
  destruct (m_transactionMutex (root w)); [done|].
  unfold modify in E0. injection E0 as <-.
  set (w0 := set_depth S (set_root (with_mutex true) w)) in *.
  assert (world_ok w0) as Hok0 by (by apply (world_ok_same w)).
  assert (depth w0 ≠ 0) as Hd0 by (simpl; lia).
  destruct (bind_inv _ _ _ _ E1) as (r & w' & E2 & E3).
  destruct (bind_inv _ _ _ _ E3) as (q & w'' & E4 & E5).
  destruct (qdata r); [|done]. injection E4 as <- <-. injection E2 as <- <-.
  destruct (bind_inv _ _ _ _ E5) as (o & w' & E6 & E7).
  destruct (hoare_load _ _ _ _ Hok0 E6) as [_ Ho].
  destruct (load_inv _ _ _ _ E6) as [-> _].
  rewrite <- bind_assoc in E7.
  destruct (bind_inv _ _ _ _ E7) as (r' & w2 & E8 & E9).
  pose proof (isoR_detach_copy fuel o _ w0 r' w2 Hok0 Hd0 E8) as (Hiso & _ & _).
  destruct (bind_inv _ _ _ _ E8) as (new & w3 & E10 & E11).
  destruct (hoare_Data_construct _ (hoare_T_copy fuel o Ho) _ _ _ Hok0 E10)
    as [_ [Hc Hs]].
  destruct (detachWith_frame _ _ _ _ _ E11) as (-> & _ & _ & _ & Hreg).
  destruct (bind_inv _ _ _ _ E9) as ([] & w4 & E12 & E13).
  unfold modify in E12. injection E12 as <-.
  destruct (qdata new) as [p'|] eqn:Hq; [|done]. injection E13 as <- <-.
  assert (block_registered p' w2 = true) as Hp.
  { unfold block_registered, registered. rewrite Hreg, existsb_app. simpl.
    rewrite <- Hc, bool_decide_eq_true_2; [|done]. by rewrite orb_true_r. }
  split; [|split].
  - intros b ob Hb Hr. exact (Hiso b ob Hb Hr).
  - exact Hp.
  - destruct (heap w !! p') as [ob|] eqn:Hb; [|done].
    assert (block_registered p' w0 = false) as Hr.
    { unfold Data_construct in E10.
      destruct (bind_inv _ _ _ _ E10) as (o' & w5 & E14 & E15).
      destruct (quietR_T_copy fuel o _ _ _ E14 Hd0) as (H1 & R1 & N1 & D1).
      rewrite (bind_Some _ _ _ _ _ (make_shared_run o' w5)) in E15.
      injection E15 as <- _. simpl in Hq. injection Hq as <-.
      destruct Hok0 as (_ & _ & Ha). destruct (alloc_ok_fresh w0 Ha) as [Hf _].
      rewrite N1 in Hb. change (heap w0 !! next w0 = Some ob) in Hb. congruence. }
    destruct (Hiso p' ob Hb Hr) as [_ Hr']. simpl in Hp. congruence.
Qed.

Lemma endTransaction_heap w w' :
  endTransaction w = Some (tt, w') → heap w' = heap w.
Proof.
  assert (∀ l w w', forM_kz (λ e, release (payload e)) l w = Some (tt, w') →
            heap w' = heap w) as Hl.
  { induction l as [|e l IH]; intros v v' E; simpl in E.
    - by injection E as <-.
    - destruct (bind_inv _ _ _ _ E) as ([] & v1 & E1 & E2).
      destruct (release_frame _ _ _ E1) as (H1 & _).
      rewrite (IH _ _ E2). done. }
  unfold endTransaction, impl_endTransaction, bind at 1, gets.
  destruct (m_transactionMutex (root w)); simpl; [|done]. intros E.
  destruct (bind_inv _ _ _ _ E) as (r & w0 & E0 & E1). injection E0 as <- <-.
  destruct (bind_inv _ _ _ _ E1) as ([] & w1 & E2 & E3).
  destruct (acquire_frame _ _ _ E2) as (H1 & _).
  destruct (bind_inv _ _ _ _ E3) as ([] & w2 & E4 & E5).
  destruct (release_frame _ _ _ E4) as (H2 & _).
  destruct (bind_inv _ _ _ _ E5) as ([] & w3 & E6 & E7).
  unfold modify in E6. injection E6 as <-.
  destruct (bind_inv _ _ _ _ E7) as ([] & w4 & E8 & E9).
  pose proof (Hl _ _ _ E8) as H4.
  destruct (bind_inv _ _ _ _ E9) as ([] & w5 & E10 & E11).
  unfold modify in E10, E11. injection E10 as <-. injection E11 as <-.
  simpl in *. congruence.
Qed.

(** **** X8 *)

(** X8: inside a transaction, calls through pointers of the registry
    (member [get], writes, both assignment operators, snapshots) leave
    every block that is not in the registry as it is and keep it out of
    the registry; entries of the registry stay, and the world stays
    well-formed. *)
Theorem guarded_calls_keep_unregistered_blocks fuel ops w w' :
  world_ok w → depth w ≠ 0 → Forall op_ok ops →
  run_guarded fuel ops w = Some (tt, w') →
  world_ok w'
  ∧ (∀ b ob, heap w !! b = Some ob → block_registered b w = false →
       heap w' !! b = Some ob ∧ block_registered b w' = false)
  ∧ (∀ b, block_registered b w = true → block_registered b w' = true).
Proof.
  intros Hok Hd Hops E.
  destruct (iso_run_guarded fuel ops Hops w tt w' Hok Hd I E) as (Hok' & R & _).
  split; [done|]. split.
  - by destruct R as (H & _).
  - intros b. by apply block_registered_isoR.
Qed.

Lemma guarded_calls_keep_unregistered_blocks_witness :
  ∃ w',
    run_guarded 2 [OCopyAssign 6 0 6 1; OCopyAssign 6 0 6 1; OGet 6 1;
                   OWrite 7 9; OSnapshot; OValueAssign 9 0 (mkObj 3 [])]
      (run_from (beginTransaction 2) nested_idle_world) = Some (tt, w')
    ∧ heap w' !! 4%positive = heap nested_idle_world !! 4%positive
    ∧ block_registered 4 w' = false
    ∧ block_registered 6 w' = true.
Proof.
  set (w := run_from (beginTransaction 2) nested_idle_world).
  set (ops := [OCopyAssign 6 0 6 1; OCopyAssign 6 0 6 1; OGet 6 1;
               OWrite 7 9; OSnapshot; OValueAssign 9 0 (mkObj 3 [])]).
  destruct (run_guarded 2 ops w) as [[[] w']|] eqn:E;
    [|vm_compute in E; discriminate].
  assert (world_ok w) as Hok by by_computation.
  assert (depth w ≠ 0) as Hd by (vm_compute; discriminate).
  assert (Forall op_ok ops) as Hops by by_computation.
  destruct (guarded_calls_keep_unregistered_blocks 2 ops w w' Hok Hd Hops E)
    as (_ & Hout & Hin).
  destruct (Hout 4%positive (mkObj 0 [mkData (Some 3%positive) (Some 3%positive)]))
    as [H4 R4]; [reflexivity|reflexivity|].
  exists w'. split; [reflexivity|]. split; [exact H4|]. split; [exact R4|].
  apply Hin. reflexivity.
Defined.

(** **** X9 *)



Lemma detach_copy_registered fuel o m w r w' :
  world_ok w →
  (new <- Data_construct (T_copy fuel o) ;; detachWith m new) w = Some (r, w') →
  ∃ p, qdata r = Some p ∧ payload r = Some p ∧ block_registered p w' = true.
Proof.
  intros Hok E.
  destruct (bind_inv _ _ _ _ E) as (new & w1 & E1 & E2).
  destruct (Data_construct_inv _ _ _ _ E1) as (a & -> & _).
  destruct (detachWith_frame _ _ _ _ _ E2) as (-> & _ & _ & _ & Hreg).
  exists a. split; [done|]. split; [done|].
  unfold block_registered, registered. rewrite Hreg, existsb_app. simpl.
  rewrite bool_decide_eq_true_2; [|done]. by rewrite orb_true_r.
Qed.

(** **** X10 *)

(** X10: detachment lasts one transaction.  For a handle [m] to a block
    that exists when a transaction ends, also one detached in that
    transaction: in the next transaction [m] is shared again, and a
    mutable [get] on it hands out a block that did not exist, registers
    it and leaves the old block as it was. *)
Theorem detachment_ends_with_transaction fuel m a o w w' p w1 :
  world_ok w →
  endTransaction w = Some (tt, w') →
  beginTransaction fuel w' = Some (p, w1) →
  qdata m = Some a → payload m = Some a → heap w !! a = Some o →
  a ≠ p
  ∧ heap w1 !! a = Some o
  ∧ detached m w1 = Some (false, w1)
  ∧ ∀ m' q w2, Member_get fuel m w1 = Some ((m', q), w2) →
      q ≠ a ∧ heap w1 !! q = None ∧ block_registered q w2 = true
      ∧ heap w2 !! a = Some o.
Proof.
  intros Hok Ee Eb Hq Hp Ha.
  destruct (hoare_endTransaction _ _ _ Hok Ee) as [Hok' _].
  destruct (endTransaction_inv _ _ Ee) as (_ & _ & _ & Hreg').
  pose proof (endTransaction_heap _ _ Ee) as Hh'.
  destruct (hoare_beginTransaction fuel _ _ _ Hok' Eb) as [Hok1 _].
  destruct (beginTransaction_inv _ _ _ _ Eb) as (_ & _ & Hd & _).
  assert (depth w1 ≠ 0) as Hd1 by lia.
  destruct (beginTransaction_iso fuel w' p w1 Hok' Eb) as (Hb & Hpr & Hnew).
  assert (block_registered a w' = false) as Hr'
    by (unfold block_registered, registered; by rewrite Hreg').
  rewrite <- Hh' in Ha. destruct (Hb a o Ha Hr') as [Ha1 Hr1].
  assert (registered m w1 = false) as Hm1.
  { rewrite <- Hr1. unfold block_registered, registered. simpl. by rewrite Hp. }
  split; [intros ->; congruence|]. split; [done|]. split.
  { by rewrite (detached_shallow m w1 Hd1), Hm1. }
  intros m' q w2 E. unfold Member_get in E.
  rewrite (bind_Some _ _ _ _ _ (detached_shallow m w1 Hd1)), Hm1 in E.
  cbn [negb] in E.
  destruct (bind_inv _ _ _ _ E) as (m1 & w3 & E1 & E2).
  destruct (bind_inv _ _ _ _ E2) as (q1 & w4 & E3 & E4).
  injection E4 as <- <- <-.
  destruct (bind_inv _ _ _ _ E1) as (a' & w5 & E5 & E6).
  unfold Member_get_const in E5. rewrite Hq in E5. injection E5 as <- <-.
  destruct (bind_inv _ _ _ _ E6) as (o' & w5 & E7 & E8).
  destruct (hoare_load _ _ _ _ Hok1 E7) as [_ Ho'].
  destruct (load_inv _ _ _ _ E7) as [-> _].
  destruct (isoR_detach_copy fuel o' m w1 m1 w3 Hok1 Hd1 E8) as (Hiso & _ & _).
  destruct (detach_copy_registered fuel o' m w1 m1 w3 Hok1 E8)
    as (q' & Hq' & _ & Hreg3).
  unfold qget in E3. rewrite Hq' in E3. injection E3 as <- <-.
  destruct (Hiso a o Ha1 Hr1) as [Ha3 Hr3].
  split; [intros ->; congruence|]. split; [|done].
  destruct (heap w1 !! q') as [oq|] eqn:Hq1; [|done].
  destruct (block_registered q' w1) eqn:Hrq.
  - exfalso. 
    destruct (bind_inv _ _ _ _ E8) as (new & w6 & E9 & E10).
    unfold Data_construct in E9.
    destruct (bind_inv _ _ _ _ E9) as (o2 & w7 & E11 & E12).
    destruct (quietR_T_copy fuel o' _ _ _ E11 Hd1) as (H1 & R1 & N1 & D1).
    rewrite (bind_Some _ _ _ _ _ (make_shared_run o2 w7)) in E12.
    injection E12 as <- <-.
    destruct (detachWith_frame _ _ _ _ _ E10) as (-> & _).
    simpl in Hq'. injection Hq' as <-.
    destruct Hok1 as (_ & _ & Hal). destruct (alloc_ok_fresh w1 Hal) as [Hf _].
    rewrite N1 in Hq1. congruence.
  - destruct (Hiso q' oq Hq1 Hrq) as [_ Hn]. congruence.
Qed.

Lemma detachment_ends_with_transaction_witness :
  ∃ w' p w1 m' q w2,
    endTransaction (run_from (run 1 [OBegin; OGet 4 0; OWrite 5 5]) idle_world)
    = Some (tt, w')
    ∧ beginTransaction 1 w' = Some (p, w1)
    ∧ detached (mkData (Some 5%positive) (Some 5%positive)) w1 = Some (false, w1)
    ∧ Member_get 1 (mkData (Some 5%positive) (Some 5%positive)) w1
      = Some ((m', q), w2)
    ∧ q ≠ 5%positive
    ∧ heap w2 !! 5%positive = Some (mkObj 5 []).
Proof.
  set (w := run_from (run 1 [OBegin; OGet 4 0; OWrite 5 5]) idle_world).
  set (m := mkData (Some 5%positive) (Some 5%positive)).
  destruct (endTransaction w) as [[[] w']|] eqn:Ee;
    [|vm_compute in Ee; discriminate].
  destruct (beginTransaction 1 w') as [[p w1]|] eqn:Eb;
    [|vm_compute in Ee; injection Ee as <-; vm_compute in Eb; discriminate].
  destruct (Member_get 1 m w1) as [[[m' q] w2]|] eqn:Eg;
    [|vm_compute in Ee; injection Ee as <-; vm_compute in Eb; injection Eb as _ <-;
      vm_compute in Eg; discriminate].
  assert (world_ok w) as Hok by by_computation.
  destruct (detachment_ends_with_transaction 1 m 5%positive (mkObj 5 []) w w' p w1
              Hok Ee Eb eq_refl eq_refl eq_refl) as (_ & _ & Hdet & Hget).
  destruct (Hget m' q w2 Eg) as (Hne & _ & _ & H5).
  exists w', p, w1, m', q, w2. done.
Defined.
